(** * lrucache: a fixed-size LRU cache (chanxuehong/lrucache)

    A shallow embedding of [lru_cache.go].  The Go cache couples a
    doubly-linked list ([container/list]) of elements with a map from keys
    to pointers to those elements.  Element pointers are modelled as
    addresses into a store [mem] of payloads, so that the aliasing between
    [itemMap] and [lruList] is explicit; the list itself is the sequence of
    element addresses from front to back.  A run-time panic (nil dereference,
    or the explicit [panic] of [New]) is the [None] of the option monad.

    Keys are any type with a decidable equality that can index a map: this
    is the NOTE of the source, "the comparison operators == and != must be
    fully defined for operands of the key type".  Go's [int] is read as an
    integer; the only arithmetic is [Len - size] with [0 <= Len] and
    [0 < size], which cannot wrap.  The mutex only serialises callers and is
    not modelled: every operation is one atomic state transformer.

    The repository holds three variants of the file.  They differ in names
    ([payloadMap] for [itemMap]), in the shape of [SetSize] (modelled as
    [SetSize_early]) and in whether [Purge] exists; [lru_cache.go] is the
    one followed here. *)

From stdpp Require Import gmap strings sorting.

Open Scope Z_scope.

(** The two sentinel errors of the package; a nil [error] is [None]. *)
Inductive error := ErrNotFound | ErrNotStored.

(** A pointer to a [list.Element]. *)
Abbreviation Element := nat.

(** ** container/list, restricted to what the cache calls *)
Module List_.

(** [l.Len()] *)
Definition Len (l : list Element) : Z := Z.of_nat (length l).

(** [l.Back()]: the last element, nil for an empty list. *)
Definition Back (l : list Element) : option Element := last l.

(** [l.Remove(e)]: unlinks [e] when it belongs to [l]. *)
Definition Remove (l : list Element) (e : Element) : list Element :=
  filter (λ x, x ≠ e) l.

(** [l.PushFront(v)], for the freshly allocated element [e]. *)
Definition PushFront (l : list Element) (e : Element) : list Element :=
  e :: l.

(** [l.MoveToFront(e)]: nothing happens when [e] is not an element of
    [l] or is already at the front. *)
Definition MoveToFront (l : list Element) (e : Element) : list Element :=
  if bool_decide (e ∉ l) || bool_decide (head l = Some e) then l
  else e :: Remove l e.

End List_.

Section model.
Context {Key : Type} `{Countable Key} {Value : Type}.

Record payload := Payload { key : Key; value : Value }.

Record Cache := mkCache {
  size : Z;
  lruList : list Element;
  itemMap : gmap Key Element;
  (** the payload each element points to *)
  mem : list payload
}.

Definition with_size (c : Cache) (n : Z) : Cache :=
  mkCache n (lruList c) (itemMap c) (mem c).
Definition with_lruList (c : Cache) (l : list Element) : Cache :=
  mkCache (size c) l (itemMap c) (mem c).

(** [New]: panics when [size <= 0]. *)
Definition New (sz : Z) : option Cache :=
  if bool_decide (sz <= 0) then None
  else Some (mkCache sz [] ∅ []).

Definition Size (c : Cache) : Z := size c.

Definition Len (c : Cache) : Z := List_.Len (lruList c).

(** [remove]: deletes the key of [e]'s payload from the index and unlinks
    [e].  Dereferencing a nil [e] panics. *)
Definition remove (c : Cache) (oe : option Element) : option Cache :=
  e ← oe;
  p ← mem c !! e;
  Some (mkCache (size c) (List_.Remove (lruList c) e)
                (delete (key p) (itemMap c)) (mem c)).

(** The loop of [SetSize]: [i] counts down, [e] is re-read from the back
    of the list after every iteration. *)
Fixpoint SetSize_loop (i : nat) (c : Cache) : option Cache :=
  match i with
  | O => Some c
  | S i' => c' ← remove c (List_.Back (lruList c)); SetSize_loop i' c'
  end.

Definition SetSize (c : Cache) (sz : Z) : option Cache :=
  if bool_decide (sz <= 0) then Some c
  else
    let n := List_.Len (lruList c) - sz in
    c' ← (if bool_decide (n > 0) then SetSize_loop (Z.to_nat n) c
          else Some c);
    Some (with_size c' sz).

(** The older variant of [SetSize] (early return when nothing has to be
    evicted). *)
Definition SetSize_early (c : Cache) (sz : Z) : option Cache :=
  if bool_decide (sz <= 0) then Some c
  else
    let n := List_.Len (lruList c) - sz in
    if bool_decide (n <= 0) then Some (with_size c sz)
    else c' ← SetSize_loop (Z.to_nat n) c; Some (with_size c' sz).

Definition Purge (c : Cache) : Cache :=
  mkCache (size c) [] ∅ (mem c).

(** [add]: the caller ensures that [k] is not in the cache.  At capacity
    the back element is reused: its payload is overwritten in place. *)
Definition add (c : Cache) (k : Key) (v : Value)
  : option (Cache * option error) :=
  if bool_decide (List_.Len (lruList c) >= size c) then
    e ← List_.Back (lruList c);
    p ← mem c !! e;
    let m1 := delete (key p) (itemMap c) in
    let h := <[e := Payload k v]> (mem c) in
    let m2 := <[k := e]> m1 in
    Some (mkCache (size c) (List_.MoveToFront (lruList c) e) m2 h, None)
  else
    let e := length (mem c) in
    Some (mkCache (size c) (List_.PushFront (lruList c) e)
                  (<[k := e]> (itemMap c)) (mem c ++ [Payload k v]), None).

Definition Add (c : Cache) (k : Key) (v : Value)
  : option (Cache * option error) :=
  match itemMap c !! k with
  | Some _ => Some (c, Some ErrNotStored)
  | None => add c k v
  end.

Definition Set_ (c : Cache) (k : Key) (v : Value)
  : option (Cache * option error) :=
  match itemMap c !! k with
  | Some e =>
      p ← mem c !! e;
      let h := <[e := Payload (key p) v]> (mem c) in
      Some (mkCache (size c) (List_.MoveToFront (lruList c) e)
                    (itemMap c) h, None)
  | None => add c k v
  end.

(** [Get]: the returned value is nil ([None]) on a miss. *)
Definition Get (c : Cache) (k : Key)
  : option (Cache * (option Value * option error)) :=
  match itemMap c !! k with
  | Some e =>
      let l := List_.MoveToFront (lruList c) e in
      p ← mem c !! e;
      Some (with_lruList c l, (Some (value p), None))
  | None => Some (c, (None, Some ErrNotFound))
  end.

Definition Remove (c : Cache) (k : Key) : option (Cache * option error) :=
  match itemMap c !! k with
  | Some e => c' ← remove c (Some e); Some (c', None)
  | None => Some (c, Some ErrNotFound)
  end.

(** ** The public interface as a transition system *)

Inductive op :=
| OGet (k : Key)
| OSet (k : Key) (v : Value)
| OAdd (k : Key) (v : Value)
| ORemove (k : Key)
| OSetSize (n : Z)
| OPurge
| OLen
| OSize.

Inductive reply :=
| RValue (v : option Value) (err : option error)
| RError (err : option error)
| RInt (n : Z)
| RNone.

Definition step (c : Cache) (o : op) : option (Cache * reply) :=
  match o with
  | OGet k => '(c', (v, err)) ← Get c k; Some (c', RValue v err)
  | OSet k v => '(c', err) ← Set_ c k v; Some (c', RError err)
  | OAdd k v => '(c', err) ← Add c k v; Some (c', RError err)
  | ORemove k => '(c', err) ← Remove c k; Some (c', RError err)
  | OSetSize n => c' ← SetSize c n; Some (c', RNone)
  | OPurge => Some (Purge c, RNone)
  | OLen => Some (c, RInt (Len c))
  | OSize => Some (c, RInt (Size c))
  end.

(** A history lists the calls made so far with their replies, the most
    recent first; [run] extends the history [h] by the calls [os]. *)
Fixpoint run (c : Cache) (h : list (op * reply)) (os : list op)
  : option (Cache * list (op * reply)) :=
  match os with
  | [] => Some (c, h)
  | o :: os' => '(c', r) ← step c o; run c' ((o, r) :: h) os'
  end.

(** Calling [New sz] and then the operations [os] in order. *)
Definition session (sz : Z) (os : list op) : option (Cache * list (op * reply)) :=
  c ← New sz; run c [] os.

Definition reachable (c : Cache) : Prop :=
  ∃ sz os h, session sz os = Some (c, h).

(** ** Abstraction: what the cache holds, front to back *)

Definition entries (c : Cache) : list payload :=
  omap (λ e, mem c !! e) (lruList c).

Definition keys (c : Cache) : list Key := key <$> entries c.

(** The "Principle" stated in the source, with the capacity bound. *)
Record wf (c : Cache) : Prop := {
  wf_size : 0 < size c;
  wf_cap : Len c <= size c;
  wf_nodup : NoDup (lruList c);
  wf_mem : ∀ e, e ∈ lruList c → is_Some (mem c !! e);
  wf_index : ∀ k e,
    itemMap c !! k = Some e ↔
    e ∈ lruList c ∧ key <$> mem c !! e = Some k
}.

(** ** Touch order, read off a history *)

(** The key a call touched: a hit of [Get], any [Set], an [Add] that
    stored. *)
Definition touched (o : op) (r : reply) : option Key :=
  match o, r with
  | OGet k, RValue _ None => Some k
  | OSet k _, RError None => Some k
  | OAdd k _, RError None => Some k
  | _, _ => None
  end.

(** Number of calls made since [k] was last touched. *)
Fixpoint age (h : list (op * reply)) (k : Key) : option nat :=
  match h with
  | [] => None
  | (o, r) :: h' =>
      if bool_decide (touched o r = Some k) then Some O
      else S <$> age h' k
  end.

(** [k1] was touched, and more recently than [k2]. *)
Definition younger (h : list (op * reply)) (k1 k2 : Key) : Prop :=
  ∃ a1 a2, age h k1 = Some a1 ∧ age h k2 = Some a2 ∧ (a1 < a2)%nat.

(** The keys are in touch order: every key was touched, and more
    recently than all the keys behind it. *)
Definition in_touch_order (h : list (op * reply)) (ks : list Key) : Prop :=
  StronglySorted (younger h) ks ∧ Forall (λ k, is_Some (age h k)) ks.

(** How a call that touched [t] may change the key sequence [ks]: the
    touched key comes first and the others keep their relative order. *)
Definition keys_after (ks : list Key) (t : option Key) (ks' : list Key)
  : Prop :=
  match t with
  | Some k => ∃ rest, ks' = k :: rest ∧ rest `sublist_of` ks ∧ k ∉ rest
  | None => ks' `sublist_of` ks
  end.

End model.

Arguments payload : clear implicits.
Arguments Cache Key {_ _} Value.
Arguments op : clear implicits.
Arguments reply : clear implicits.

(** ** Example states, with string keys and integer values *)

(** The cache after [New 2; Set "a" 1; Set "b" 2]. *)
Definition cache_ab : Cache string Z :=
  mkCache 2 [1%nat; 0%nat] {[ "a"%string := 0%nat; "b"%string := 1%nat ]}
          [Payload "a"%string 1; Payload "b"%string 2].

Definition history_ab : list (op string Z * reply Z) :=
  [(OSet "b"%string 2, RError None); (OSet "a"%string 1, RError None)].

(** The cache after [New 2; Set "a" 1]: one entry, room for another. *)
Definition cache_a : Cache string Z :=
  mkCache 2 [0%nat] {[ "a"%string := 0%nat ]} [Payload "a"%string 1].

(** The cache after [New 2; Set "b" 2; Set "a" 1; Get "b"]: the entries of
    [cache_ab] in the same order, held in other elements. *)
Definition cache_ba : Cache string Z :=
  mkCache 2 [0%nat; 1%nat] {[ "b"%string := 0%nat; "a"%string := 1%nat ]}
          [Payload "b"%string 2; Payload "a"%string 1].

(** The cache after [Set "c" 3] on [cache_ab]: the element of ["a"] is
    reused. *)
Definition cache_cb : Cache string Z :=
  mkCache 2 [0%nat; 1%nat] {[ "b"%string := 1%nat; "c"%string := 0%nat ]}
          [Payload "c"%string 3; Payload "b"%string 2].

Section proofs.
Context {Key : Type} `{Countable Key} {Value : Type}.

Local Abbreviation payload := (payload Key Value).
Local Abbreviation Cache := (Cache Key Value).
Local Abbreviation op := (op Key Value).
Local Abbreviation reply := (reply Value).

(** ** Facts about the list operations *)

Lemma elem_of_Remove (l : list Element) e x :
  x ∈ List_.Remove l e ↔ x ∈ l ∧ x ≠ e.
Proof. unfold List_.Remove. rewrite list_elem_of_filter. tauto. Qed.

Lemma NoDup_Remove (l : list Element) e :
  NoDup l → NoDup (List_.Remove l e).
Proof. apply NoDup_filter. Qed.

Lemma Remove_absent (l : list Element) e :
  e ∉ l → List_.Remove l e = l.
Proof.
  induction l as [|x l IH]; intros Hne; [done|].
  apply not_elem_of_cons in Hne as [Hx Hl]. unfold List_.Remove in *.
  rewrite filter_cons_True by congruence. by rewrite IH.
Qed.

Lemma Remove_back (l : list Element) e :
  NoDup (l ++ [e]) → List_.Remove (l ++ [e]) e = l.
Proof.
  intros [Hl [Hd _]]%NoDup_app. unfold List_.Remove.
  rewrite filter_app, filter_cons_False, filter_nil, app_nil_r by tauto.
  apply Remove_absent. intros He. apply (Hd e He). by left.
Qed.

Lemma length_Remove (l : list Element) e :
  NoDup l → e ∈ l → S (length (List_.Remove l e)) = length l.
Proof.
  induction l as [|x l IH]; intros Hnd He; [by apply elem_of_nil in He|].
  apply NoDup_cons in Hnd as [Hx Hnd]. unfold List_.Remove in *.
  destruct (decide (x = e)) as [->|Hne].
  - rewrite filter_cons_False by tauto.
    fold (List_.Remove l e). by rewrite Remove_absent.
  - rewrite filter_cons_True by done. simpl. f_equal. apply IH; [done|].
    apply elem_of_cons in He as [?|?]; congruence.
Qed.

Lemma MoveToFront_eq (l : list Element) e :
  NoDup l → e ∈ l → List_.MoveToFront l e = e :: List_.Remove l e.
Proof.
  intros Hnd He. unfold List_.MoveToFront.
  rewrite bool_decide_eq_false_2 by tauto. simpl.
  case_bool_decide as Hh; [|done].
  destruct l as [|x l]; simplify_eq/=.
  apply NoDup_cons in Hnd as [Hx _]. unfold List_.Remove.
  rewrite filter_cons_False by tauto.
  fold (List_.Remove l e). by rewrite Remove_absent.
Qed.

Lemma Back_Some (l : list Element) e :
  List_.Back l = Some e ↔ ∃ l', l = l' ++ [e].
Proof. apply last_Some. Qed.

Lemma Back_is_Some (l : list Element) :
  l ≠ [] → is_Some (List_.Back l).
Proof. intros Hl. unfold List_.Back. by apply last_is_Some. Qed.

(** ** Facts about the abstraction *)

Lemma omap_unfold {A B} (f : A → option B) x l :
  omap f (x :: l) = match f x with
                    | Some y => y :: omap f l
                    | None => omap f l
                    end.
Proof. done. Qed.

Lemma omap_mem_ext (h h' : list payload) (l : list Element) :
  (∀ e, e ∈ l → h' !! e = h !! e) →
  omap (λ e, h' !! e) l = omap (λ e, h !! e) l.
Proof.
  induction l as [|x l IH]; intros Hag; [done|]. rewrite !omap_unfold.
  rewrite Hag by left. rewrite IH; [done|].
  intros e He. apply Hag. by right.
Qed.

Lemma omap_mem_length (h : list payload) (l : list Element) :
  (∀ e, e ∈ l → is_Some (h !! e)) →
  length (omap (λ e, h !! e) l) = length l.
Proof.
  induction l as [|x l IH]; intros Hs; [done|]. rewrite omap_unfold.
  destruct (Hs x) as [p Hp]; [left|]. rewrite Hp. simpl. f_equal.
  apply IH. intros e He. apply Hs. by right.
Qed.

Lemma omap_mem_Remove (h : list payload) (l : list Element) e k :
  (∀ x p, x ∈ l → h !! x = Some p → (x = e ↔ key p = k)) →
  omap (λ x, h !! x) (List_.Remove l e)
  = filter (λ p, key p ≠ k) (omap (λ x, h !! x) l).
Proof.
  unfold List_.Remove.
  induction l as [|x l IH]; intros Hk; [done|].
  assert (IH' := IH (λ y q Hy, Hk y q (list_elem_of_further _ _ _ Hy))).
  clear IH. rewrite omap_unfold. destruct (h !! x) as [p|] eqn:Hp.
  - destruct (Hk x p (list_elem_of_here _ _) Hp) as [H1 H2].
    destruct (decide (x = e)) as [He|He].
    + rewrite filter_cons_False by tauto.
      rewrite (filter_cons_False _ p) by (intros Hq; apply Hq; auto).
      done.
    + rewrite filter_cons_True by done.
      rewrite (filter_cons_True _ p) by (intros Hq; apply He; auto).
      rewrite omap_unfold, Hp. by rewrite IH'.
  - destruct (decide (x = e)) as [He|He].
    + by rewrite filter_cons_False by tauto.
    + rewrite filter_cons_True by done. by rewrite omap_unfold, Hp.
Qed.

Lemma elem_of_entries (c : Cache) p :
  p ∈ entries c ↔ ∃ e, e ∈ lruList c ∧ mem c !! e = Some p.
Proof. unfold entries. apply list_elem_of_omap. Qed.

Lemma length_entries (c : Cache) :
  wf c → length (entries c) = length (lruList c).
Proof. intros Hwf. apply omap_mem_length, Hwf. Qed.

Lemma wf_key_inj (c : Cache) e1 e2 p1 p2 :
  wf c → e1 ∈ lruList c → e2 ∈ lruList c →
  mem c !! e1 = Some p1 → mem c !! e2 = Some p2 →
  key p1 = key p2 → e1 = e2.
Proof.
  intros Hwf H1 H2 Hp1 Hp2 Hk.
  assert (itemMap c !! key p1 = Some e1) as Hm1.
  { apply Hwf. by rewrite Hp1. }
  assert (itemMap c !! key p1 = Some e2) as Hm2.
  { apply Hwf. rewrite Hp2. simpl. by rewrite Hk. }
  congruence.
Qed.

Lemma wf_lookup_entry (c : Cache) k e :
  wf c → itemMap c !! k = Some e →
  ∃ p, mem c !! e = Some p ∧ key p = k ∧ e ∈ lruList c ∧ p ∈ entries c.
Proof.
  intros Hwf [He Hk]%Hwf.
  destruct (mem c !! e) as [p|] eqn:Hp; simplify_eq/=.
  exists p. split_and!; [done..|]. apply elem_of_entries. eauto.
Qed.

Lemma wf_lookup (c : Cache) k :
  wf c → is_Some (itemMap c !! k) ↔ k ∈ keys c.
Proof.
  intros Hwf. unfold keys. rewrite list_elem_of_fmap. split.
  - intros [e He]. destruct (wf_lookup_entry c k e Hwf He) as (p&?&?&?&?).
    eauto.
  - intros (p & -> & (e & He & Hp)%elem_of_entries).
    exists e. apply Hwf. by rewrite Hp.
Qed.

Lemma wf_lookup_None (c : Cache) k :
  wf c → itemMap c !! k = None ↔ k ∉ keys c.
Proof.
  intros Hwf. rewrite <- (wf_lookup c k Hwf).
  rewrite eq_None_not_Some. done.
Qed.

Lemma NoDup_keys (c : Cache) : wf c → NoDup (keys c).
Proof.
  intros Hwf. unfold keys, entries.
  assert (∀ e1 e2 p1 p2, e1 ∈ lruList c → e2 ∈ lruList c →
    mem c !! e1 = Some p1 → mem c !! e2 = Some p2 →
    key p1 = key p2 → e1 = e2) as Hinj
    by (intros; by eapply wf_key_inj).
  assert (NoDup (lruList c)) as Hnd by apply Hwf.
  revert Hinj Hnd. generalize (lruList c) as l.
  induction l as [|x l IH]; intros Hinj Hnd; [constructor|].
  apply NoDup_cons in Hnd as [Hx Hnd]. rewrite omap_unfold.
  assert (NoDup (key <$> omap (λ e, mem c !! e) l)) as IH'.
  { apply IH; [|done]. intros e1 e2 p1 p2 H1 H2.
    apply Hinj; by right. }
  destruct (mem c !! x) as [p|] eqn:Hp; [|done]. rewrite fmap_cons.
  apply NoDup_cons. split; [|done].
  intros (q & Hq & (e & He & Hqe)%list_elem_of_omap)%list_elem_of_fmap.
  apply Hx. assert (x = e) as ->; [|done].
  eapply Hinj; eauto; [left|by right].
Qed.

Lemma size_itemMap (c : Cache) :
  wf c → base.size (itemMap c) = length (lruList c).
Proof.
  intros Hwf. rewrite <- size_dom.
  assert (dom (itemMap c) = list_to_set (keys c)) as ->.
  { apply set_eq. intros k.
    rewrite elem_of_dom, elem_of_list_to_set. by apply wf_lookup. }
  rewrite size_list_to_set by by apply NoDup_keys.
  unfold keys. rewrite length_fmap. by apply length_entries.
Qed.

(** ** The private helpers on well-formed caches *)

Lemma Len_length (c : Cache) : Len c = Z.of_nat (length (lruList c)).
Proof. done. Qed.

Lemma remove_spec (c : Cache) e p :
  wf c → e ∈ lruList c → mem c !! e = Some p →
  ∃ c', remove c (Some e) = Some c' ∧ wf c' ∧ size c' = size c ∧
        lruList c' = List_.Remove (lruList c) e ∧ mem c' = mem c ∧
        itemMap c' = delete (key p) (itemMap c) ∧
        entries c' = filter (λ q, key q ≠ key p) (entries c).
Proof.
  intros Hwf He Hp. eexists. split; [simpl; by rewrite Hp|]. simpl.
  assert (∀ x q, x ∈ lruList c → mem c !! x = Some q →
                 (x = e ↔ key q = key p)) as Hkey.
  { intros x q Hx Hq. split; [intros ->; congruence|].
    intros Hk. by eapply (wf_key_inj c x e q p). }
  split; [|split_and!; try done; by apply omap_mem_Remove].
  split; simpl.
  - apply Hwf.
  - pose proof (wf_cap c Hwf) as Hcap. rewrite !Len_length in *. simpl.
    pose proof (length_Remove _ e (wf_nodup c Hwf) He). lia.
  - apply NoDup_Remove, Hwf.
  - intros x [Hx _]%elem_of_Remove. by apply Hwf.
  - intros k x. rewrite lookup_delete_Some, elem_of_Remove.
    rewrite (wf_index c Hwf). split.
    + intros (Hne & Hx & Hk). split_and!; try done.
      intros ->. rewrite Hp in Hk. by simplify_eq/=.
    + intros ((Hx & Hne) & Hk). split_and!; try done.
      destruct (mem c !! x) as [q|] eqn:Hq; simplify_eq/=.
      intros Hpk. apply Hne. by apply (Hkey x q).
Qed.

Lemma remove_back_spec (c : Cache) :
  wf c → lruList c ≠ [] →
  ∃ c' old, remove c (List_.Back (lruList c)) = Some c' ∧ wf c' ∧
            size c' = size c ∧ entries c = entries c' ++ [old].
Proof.
  intros Hwf Hne.
  destruct (Back_is_Some _ Hne) as [e He]. rewrite He.
  pose proof He as [l' Hl]%Back_Some.
  assert (e ∈ lruList c) as Hin.
  { rewrite Hl. apply elem_of_app. right. by left. }
  destruct (wf_mem c Hwf e Hin) as [p Hp].
  destruct (remove_spec c e p Hwf Hin Hp)
    as (c' & Hr & Hwf' & Hsz & Hl' & Hm' & _ & _).
  exists c', p. split_and!; try done.
  unfold entries. rewrite Hl', Hm', Hl.
  rewrite Remove_back by (rewrite <- Hl; apply Hwf).
  rewrite omap_app. f_equal. rewrite omap_unfold, Hp. done.
Qed.

(** Moving [e] to the front while its payload [p] is replaced by [q] and
    the index is re-keyed accordingly: the common core of a hit and of an
    insertion that reuses the back element. *)
Lemma touch_spec (c : Cache) e p q :
  wf c → e ∈ lruList c → mem c !! e = Some p →
  key q = key p ∨ itemMap c !! key q = None →
  let c' := mkCache (size c) (List_.MoveToFront (lruList c) e)
              (<[key q := e]> (delete (key p) (itemMap c)))
              (<[e := q]> (mem c)) in
  wf c' ∧ entries c' = q :: filter (λ x, key x ≠ key p) (entries c).
Proof.
  intros Hwf He Hp Hq c'. subst c'.
  pose proof (lookup_lt_Some _ _ _ Hp) as Hlt.
  assert (∀ x r, x ∈ lruList c → mem c !! x = Some r →
                 (x = e ↔ key r = key p)) as Hkey.
  { intros x r Hx Hr. split; [intros ->; congruence|].
    intros Hk. by eapply (wf_key_inj c x e r p). }
  rewrite MoveToFront_eq by (done || apply Hwf).
  split.
  - split; simpl.
    + apply Hwf.
    + pose proof (wf_cap c Hwf) as Hcap. rewrite !Len_length in *. simpl.
      pose proof (length_Remove _ e (wf_nodup c Hwf) He). lia.
    + apply NoDup_cons. split; [|apply NoDup_Remove, Hwf].
      rewrite elem_of_Remove. tauto.
    + intros x Hx. apply lookup_lt_is_Some. rewrite length_insert.
      apply elem_of_cons in Hx as [->|[Hx _]%elem_of_Remove]; [done|].
      apply lookup_lt_is_Some. by apply Hwf.
    + intros k x. rewrite elem_of_cons, elem_of_Remove.
      destruct (decide (x = e)) as [->|Hxe].
      * rewrite list_lookup_insert_eq by done. simpl.
        destruct (decide (key q = k)) as [<-|Hk].
        { rewrite lookup_insert_eq. intuition congruence. }
        rewrite lookup_insert_ne, lookup_delete_Some by done.
        rewrite (wf_index c Hwf), Hp. simpl. intuition congruence.
      * rewrite list_lookup_insert_ne by done.
        destruct (decide (key q = k)) as [<-|Hk].
        { rewrite lookup_insert_eq. split; [intuition congruence|].
          intros [[?|[Hx _]] Hkx]; [done|]. exfalso.
          destruct (mem c !! x) as [r|] eqn:Hr; simplify_eq/=.
          destruct Hq as [Hq|Hq].
          - apply Hxe. apply (Hkey x r); congruence.
          - assert (itemMap c !! key q = Some x) as Hm; [|congruence].
            apply Hwf. split; [done|]. rewrite Hr. simpl. by f_equal. }
        rewrite lookup_insert_ne, lookup_delete_Some by done.
        rewrite (wf_index c Hwf). split; [intuition congruence|].
        intros [[?|[Hx _]] Hkx]; [done|]. split_and!; try done.
        destruct (mem c !! x) as [r|] eqn:Hr; simplify_eq/=.
        intros Hpk. apply Hxe. by apply (Hkey x r).
  - unfold entries. cbn [lruList mem]. rewrite omap_unfold.
    rewrite list_lookup_insert_eq by done. f_equal.
    rewrite <- (omap_mem_Remove (mem c) (lruList c) e (key p)) by done.
    apply omap_mem_ext. intros x [_ Hx]%elem_of_Remove.
    by rewrite list_lookup_insert_ne.
Qed.

Lemma filter_all {A} (P : A → Prop) `{!∀ x, Decision (P x)} (l : list A) :
  (∀ x, x ∈ l → P x) → filter P l = l.
Proof.
  induction l as [|x l IH]; intros Hall; [done|].
  rewrite filter_cons_True by (apply Hall; left).
  f_equal. apply IH. intros y Hy. apply Hall. by right.
Qed.

Lemma filter_key_back (rest : list payload) old :
  NoDup (key <$> rest ++ [old]) →
  filter (λ q, key q ≠ key old) (rest ++ [old]) = rest.
Proof.
  rewrite fmap_app. intros (_ & Hd & _)%NoDup_app.
  rewrite filter_app, filter_cons_False, filter_nil, app_nil_r by tauto.
  apply filter_all. intros q Hq Hk. apply (Hd (key q)).
  - apply list_elem_of_fmap. eauto.
  - rewrite Hk. simpl. left.
Qed.

Lemma full_nonempty (c : Cache) :
  wf c → Len c >= size c → lruList c ≠ [].
Proof.
  intros Hwf Hfull Hnil. pose proof (wf_size c Hwf).
  rewrite Len_length, Hnil in Hfull. simpl in Hfull. lia.
Qed.

Lemma add_room_spec (c : Cache) k v :
  wf c → itemMap c !! k = None → Len c < size c →
  ∃ c', add c k v = Some (c', None) ∧ wf c' ∧ size c' = size c ∧
        entries c' = Payload k v :: entries c.
Proof.
  intros Hwf Hk Hroom. unfold add. fold (Len c).
  rewrite bool_decide_eq_false_2 by lia.
  eexists. split; [done|].
  assert (∀ x, x ∈ lruList c → (x < length (mem c))%nat) as Hlt.
  { intros x Hx. apply lookup_lt_is_Some. by apply Hwf. }
  assert (length (mem c) ∉ lruList c) as Hfresh.
  { intros Hin%Hlt. lia. }
  split; [split|split]; cbn [size lruList itemMap mem].
  - apply Hwf.
  - rewrite Len_length in *. unfold List_.PushFront. cbn [lruList length].
    lia.
  - apply NoDup_cons. split; [done|apply Hwf].
  - intros x [->|Hx]%elem_of_cons; apply lookup_lt_is_Some;
      rewrite length_app; simpl; [lia|]. apply Hlt in Hx. lia.
  - intros k' x. unfold List_.PushFront. rewrite elem_of_cons.
    destruct (decide (x = length (mem c))) as [->|Hx].
    + rewrite lookup_app_r, Nat.sub_diag by lia. simpl.
      destruct (decide (k = k')) as [<-|Hkk].
      * rewrite lookup_insert_eq. tauto.
      * rewrite lookup_insert_ne by done. split; [|intuition congruence].
        intros [? _]%Hwf. done.
    + destruct (decide (k = k')) as [<-|Hkk].
      * rewrite lookup_insert_eq. split; [intuition congruence|].
        intros [[?|Hin] Hkx]; [done|]. exfalso.
        rewrite lookup_app_l in Hkx by by apply Hlt.
        assert (itemMap c !! k = Some x) as Hm by by apply Hwf.
        congruence.
      * rewrite lookup_insert_ne by done. rewrite (wf_index c Hwf).
        split.
        -- intros [Hin Hkx]. split; [by right|].
           rewrite lookup_app_l by by apply Hlt. done.
        -- intros [[?|Hin] Hkx]; [done|]. split; [done|].
           rewrite lookup_app_l in Hkx by by apply Hlt. done.
  - done.
  - unfold entries, List_.PushFront. cbn [lruList mem].
    rewrite omap_unfold, lookup_app_r, Nat.sub_diag by lia. simpl.
    f_equal. apply omap_mem_ext. intros x Hx.
    apply lookup_app_l. by apply Hlt.
Qed.

Lemma add_full_spec (c : Cache) k v :
  wf c → itemMap c !! k = None → Len c >= size c →
  ∃ c' rest old, add c k v = Some (c', None) ∧ wf c' ∧
    size c' = size c ∧ entries c = rest ++ [old] ∧
    entries c' = Payload k v :: rest.
Proof.
  intros Hwf Hk Hfull. unfold add. fold (Len c).
  rewrite bool_decide_eq_true_2 by done.
  destruct (Back_is_Some _ (full_nonempty c Hwf Hfull)) as [e He].
  rewrite He. simpl.
  pose proof He as [l' Hl]%Back_Some.
  assert (e ∈ lruList c) as Hin.
  { rewrite Hl. apply elem_of_app. right. by left. }
  destruct (wf_mem c Hwf e Hin) as [p Hp]. rewrite Hp. simpl.
  destruct (touch_spec c e p (Payload k v) Hwf Hin Hp (or_intror Hk))
    as [Hwf' Hent]. cbn [key] in *.
  assert (entries c = omap (λ x, mem c !! x) l' ++ [p]) as Hc.
  { unfold entries. rewrite Hl, omap_app, omap_unfold, Hp. done. }
  eexists _, _, p. split_and!; [done|exact Hwf'|done|exact Hc|].
  rewrite Hent, Hc. f_equal. apply filter_key_back.
  rewrite <- Hc. by apply NoDup_keys.
Qed.

(** ** The public operations on well-formed caches *)

Lemma wf_New sz (c : Cache) :
  New sz = Some c → wf c ∧ size c = sz ∧ entries c = [].
Proof.
  unfold New. case_bool_decide; intros [= <-]. split; [|done].
  split; cbn [size lruList itemMap mem]; try done.
  - lia.
  - rewrite Len_length. simpl. lia.
  - constructor.
  - intros e He. by apply elem_of_nil in He.
  - intros k e. rewrite lookup_empty. split; [done|].
    intros [He _]. by apply elem_of_nil in He.
Qed.

Lemma wf_Purge (c : Cache) : wf c → wf (Purge c).
Proof.
  intros Hwf. split; cbn [Purge size lruList itemMap mem].
  - apply Hwf.
  - pose proof (wf_size c Hwf). rewrite Len_length. simpl. lia.
  - constructor.
  - intros e He. by apply elem_of_nil in He.
  - intros k e. rewrite lookup_empty. split; [done|].
    intros [He _]. by apply elem_of_nil in He.
Qed.

Lemma Get_hit_spec (c : Cache) k e p :
  wf c → itemMap c !! k = Some e → mem c !! e = Some p →
  ∃ c', Get c k = Some (c', (Some (value p), None)) ∧ wf c' ∧
        size c' = size c ∧
        entries c' = p :: filter (λ q, key q ≠ k) (entries c).
Proof.
  intros Hwf Hk Hp. unfold Get. rewrite Hk, Hp. simpl.
  destruct (wf_lookup_entry c k e Hwf Hk) as (p' & Hp' & Hkp & Hin & _).
  assert (p' = p) as -> by congruence.
  destruct (touch_spec c e p p Hwf Hin Hp (or_introl eq_refl))
    as [Hwf' Hent].
  rewrite insert_delete_eq, list_insert_id in * by done.
  rewrite (insert_id (itemMap c)) in * by by rewrite Hkp.
  rewrite Hkp in Hent. eexists. split_and!; [done|exact Hwf'|done|].
  exact Hent.
Qed.

Lemma Get_miss_spec (c : Cache) k :
  itemMap c !! k = None → Get c k = Some (c, (None, Some ErrNotFound)).
Proof. intros Hk. unfold Get. by rewrite Hk. Qed.

Lemma Set_hit_spec (c : Cache) k v e :
  wf c → itemMap c !! k = Some e →
  ∃ c', Set_ c k v = Some (c', None) ∧ wf c' ∧ size c' = size c ∧
        entries c' = Payload k v :: filter (λ q, key q ≠ k) (entries c).
Proof.
  intros Hwf Hk. unfold Set_. rewrite Hk.
  destruct (wf_lookup_entry c k e Hwf Hk) as (p & Hp & Hkp & Hin & _).
  rewrite Hp. simpl.
  destruct (touch_spec c e p (Payload (key p) v) Hwf Hin Hp
              (or_introl eq_refl)) as [Hwf' Hent].
  cbn [key] in *. rewrite insert_delete_eq in * by done.
  rewrite (insert_id (itemMap c)) in * by by rewrite Hkp.
  rewrite Hkp in *. eexists. split_and!; [done|exact Hwf'|done|].
  exact Hent.
Qed.

Lemma Remove_hit_spec (c : Cache) k e :
  wf c → itemMap c !! k = Some e →
  ∃ c', Remove c k = Some (c', None) ∧ wf c' ∧ size c' = size c ∧
        itemMap c' = delete k (itemMap c) ∧
        lruList c' = List_.Remove (lruList c) e ∧
        entries c' = filter (λ q, key q ≠ k) (entries c).
Proof.
  intros Hwf Hk. unfold Remove. rewrite Hk.
  destruct (wf_lookup_entry c k e Hwf Hk) as (p & Hp & Hkp & Hin & _).
  destruct (remove_spec c e p Hwf Hin Hp)
    as (c' & -> & Hwf' & Hsz & Hl & _ & Hm & Hent).
  rewrite Hkp in *. exists c'. by split_and!.
Qed.

Lemma Remove_miss_spec (c : Cache) k :
  itemMap c !! k = None → Remove c k = Some (c, Some ErrNotFound).
Proof. intros Hk. unfold Remove. by rewrite Hk. Qed.

Lemma SetSize_loop_spec (i : nat) (c : Cache) :
  wf c → (i ≤ length (lruList c))%nat →
  ∃ c', SetSize_loop i c = Some c' ∧ wf c' ∧ size c' = size c ∧
        entries c' = take (length (lruList c) - i) (entries c).
Proof.
  revert c. induction i as [|i IH]; intros c Hwf Hi.
  - exists c. split_and!; try done.
    rewrite Nat.sub_0_r, <- length_entries by done.
    by rewrite take_ge.
  - cbn [SetSize_loop].
    assert (lruList c ≠ []) as Hne.
    { intros Hnil. rewrite Hnil in Hi. simpl in Hi. lia. }
    destruct (remove_back_spec c Hwf Hne)
      as (c1 & old & -> & Hwf1 & Hsz1 & Hent1). simpl.
    pose proof (length_entries c Hwf) as Hlen.
    pose proof (length_entries c1 Hwf1) as Hlen1.
    rewrite Hent1, length_app in Hlen. simpl in Hlen.
    destruct (IH c1 Hwf1) as (c' & Hrun & Hwf' & Hsz' & Hent'); [lia|].
    exists c'. split_and!; [done|done|congruence|].
    rewrite Hent', Hent1.
    rewrite take_app_le by lia. f_equal. lia.
Qed.

Lemma SetSize_spec (c : Cache) n :
  wf c → 0 < n →
  ∃ c', SetSize c n = Some c' ∧ wf c' ∧ size c' = n ∧
        entries c' = take (Z.to_nat n) (entries c).
Proof.
  intros Hwf Hn. unfold SetSize.
  rewrite bool_decide_eq_false_2 by lia. fold (Len c).
  pose proof (length_entries c Hwf) as Hlen.
  case_bool_decide as Hgt.
  - destruct (SetSize_loop_spec (Z.to_nat (Len c - n)) c Hwf)
      as (c' & -> & Hwf' & Hsz' & Hent').
    { rewrite Len_length. lia. }
    simpl. eexists. split; [done|].
    assert (length (lruList c) - Z.to_nat (Len c - n) = Z.to_nat n)%nat
      as Heq by (rewrite Len_length in *; lia).
    rewrite Heq in Hent'. split_and!; [|done|done].
    pose proof (length_entries c' Hwf') as Hlen'.
    rewrite Hent', length_take in Hlen'.
    split; cbn [with_size size lruList itemMap mem];
      [done| |apply Hwf'..].
    rewrite Len_length in *. simpl. lia.
  - simpl. eexists. split; [done|]. split_and!; [|done|].
    + split; cbn [with_size size lruList itemMap mem];
        [done| |apply Hwf..].
      rewrite Len_length in *. simpl. lia.
    + unfold entries at 1. cbn [with_size lruList mem].
      fold (entries c). rewrite take_ge; [done|].
      rewrite Hlen. rewrite Len_length in Hgt. lia.
Qed.

(** ** One call: the state stays well formed and the keys move as the
       touch prescribes *)

Lemma keys_filter (es : list payload) k :
  key <$> filter (λ q, key q ≠ k) es `sublist_of` key <$> es ∧
  k ∉ key <$> filter (λ q, key q ≠ k) es.
Proof.
  split.
  - apply fmap_sublist, sublist_filter.
  - intros (q & -> & [Hq _]%list_elem_of_filter)%list_elem_of_fmap.
    by apply Hq.
Qed.

Lemma add_spec (c : Cache) k v :
  wf c → itemMap c !! k = None →
  ∃ c', add c k v = Some (c', None) ∧ wf c' ∧ size c' = size c ∧
        keys_after (keys c) (Some k) (keys c').
Proof.
  intros Hwf Hk. pose proof Hk as Hnk%wf_lookup_None; [|done].
  destruct (decide (Len c < size c)) as [Hroom|Hfull].
  - destruct (add_room_spec c k v Hwf Hk Hroom)
      as (c' & Hadd & Hwf' & Hsz & Hent).
    exists c'. split_and!; try done. exists (keys c).
    unfold keys. rewrite Hent. by split_and!.
  - destruct (add_full_spec c k v Hwf Hk)
      as (c' & rest & old & Hadd & Hwf' & Hsz & Hent & Hent'); [lia|].
    exists c'. split_and!; try done. exists (key <$> rest).
    unfold keys in *. rewrite Hent' in *. rewrite Hent in *.
    split_and!; [done| |].
    + apply fmap_sublist. by apply sublist_inserts_r.
    + intros Hin. apply Hnk. rewrite fmap_app, elem_of_app. by left.
Qed.

Local Ltac step_done :=
  eexists _, _; split_and!; [done|done|by cbn [touched keys_after]].

Lemma step_spec (c : Cache) o :
  wf c →
  ∃ c' r, step c o = Some (c', r) ∧ wf c' ∧
          keys_after (keys c) (touched o r) (keys c').
Proof.
  intros Hwf. destruct o as [k|k v|k v|k|n| | |]; cbn [step].
  - destruct (itemMap c !! k) as [e|] eqn:Hk.
    + destruct (wf_lookup_entry c k e Hwf Hk) as (p & Hp & Hkp & _).
      destruct (Get_hit_spec c k e p Hwf Hk Hp)
        as (c' & -> & Hwf' & _ & Hent).
      eexists _, _. split_and!; [done..|]. simpl.
      eexists. unfold keys. rewrite Hent, fmap_cons, Hkp.
      split; [done|]. apply keys_filter.
    + rewrite Get_miss_spec by done. step_done.
  - destruct (itemMap c !! k) as [e|] eqn:Hk.
    + destruct (Set_hit_spec c k v e Hwf Hk)
        as (c' & -> & Hwf' & _ & Hent).
      eexists _, _. split_and!; [done..|]. simpl.
      eexists. unfold keys. rewrite Hent, fmap_cons.
      split; [done|]. apply keys_filter.
    + destruct (add_spec c k v Hwf Hk) as (c' & Hadd & Hwf' & _ & Hks).
      unfold Set_. rewrite Hk, Hadd. step_done.
  - destruct (itemMap c !! k) as [e|] eqn:Hk.
    + unfold Add. rewrite Hk. step_done.
    + destruct (add_spec c k v Hwf Hk) as (c' & Hadd & Hwf' & _ & Hks).
      unfold Add. rewrite Hk, Hadd. step_done.
  - destruct (itemMap c !! k) as [e|] eqn:Hk.
    + destruct (Remove_hit_spec c k e Hwf Hk)
        as (c' & -> & Hwf' & _ & _ & _ & Hent).
      eexists _, _. split_and!; [done..|]. simpl.
      unfold keys. rewrite Hent. apply keys_filter.
    + rewrite Remove_miss_spec by done. step_done.
  - destruct (decide (n <= 0)) as [Hn|Hn].
    + unfold SetSize. rewrite bool_decide_eq_true_2 by done.
      step_done.
    + destruct (SetSize_spec c n Hwf) as (c' & -> & Hwf' & _ & Hent);
        [lia|].
      eexists _, _. split_and!; [done..|]. simpl.
      unfold keys. rewrite Hent. apply fmap_sublist, sublist_take.
  - eexists _, _. split_and!; [done|by apply wf_Purge|].
    apply sublist_nil_l.
  - step_done.
  - step_done.
Qed.

(** ** Sessions: touch order is an invariant *)

Lemma age_touched (h : list (op * reply)) o r (k : Key) :
  touched o r = Some k → age ((o, r) :: h) k = Some O.
Proof. intros Ht. cbn [age]. by rewrite bool_decide_eq_true_2. Qed.

Lemma age_other (h : list (op * reply)) o r (k : Key) :
  touched o r ≠ Some k → age ((o, r) :: h) k = S <$> age h k.
Proof. intros Ht. cbn [age]. by rewrite bool_decide_eq_false_2. Qed.

Lemma younger_later (h : list (op * reply)) o r (k1 k2 : Key) :
  touched o r ≠ Some k1 → touched o r ≠ Some k2 →
  younger h k1 k2 → younger ((o, r) :: h) k1 k2.
Proof.
  intros H1 H2 (a1 & a2 & Ha1 & Ha2 & Hlt).
  exists (S a1), (S a2). rewrite !age_other, Ha1, Ha2 by done.
  split_and!; [done..|lia].
Qed.

Lemma StronglySorted_sublist {A} (R : relation A) (l1 l2 : list A) :
  l1 `sublist_of` l2 → StronglySorted R l2 → StronglySorted R l1.
Proof.
  induction 1 as [|x l1 l2 Hsub IH|x l1 l2 Hsub IH]; [done|..];
    intros [Hx Hs]%StronglySorted_cons; [|by apply IH].
  apply StronglySorted_cons. split; [|by apply IH].
  apply Forall_forall. intros y Hy.
  rewrite Forall_forall in Hx. by apply Hx, (sublist_subseteq _ _ Hsub).
Qed.

Lemma in_touch_order_sublist (h : list (op * reply)) o r
    (ks ks' : list Key) :
  in_touch_order h ks → ks' `sublist_of` ks →
  (∀ k, k ∈ ks' → touched o r ≠ Some k) →
  in_touch_order ((o, r) :: h) ks'.
Proof.
  intros [Hs Ha] Hsub Hnt.
  pose proof (StronglySorted_sublist _ _ _ Hsub Hs) as Hs'.
  assert (Forall (λ k, is_Some (age h k)) ks') as Ha'.
  { rewrite Forall_forall in *. intros k Hk.
    by apply Ha, (sublist_subseteq _ _ Hsub). }
  clear Hs Ha Hsub. split.
  - induction ks' as [|k ks' IH]; [constructor|].
    apply StronglySorted_cons in Hs' as [Hk Hs'].
    apply Forall_cons in Ha' as [_ Ha'].
    apply StronglySorted_cons. split.
    + rewrite Forall_forall in *. intros k' Hk'.
      apply younger_later; [apply Hnt; left|apply Hnt; by right|].
      by apply Hk.
    + apply IH; [|done..]. intros k' Hk'. apply Hnt. by right.
  - rewrite Forall_forall in *. intros k Hk.
    rewrite age_other by by apply Hnt.
    destruct (Ha' k Hk) as [a ->]. by eexists.
Qed.

Lemma in_touch_order_step (h : list (op * reply)) o r
    (ks ks' : list Key) :
  in_touch_order h ks → keys_after ks (touched o r) ks' →
  in_touch_order ((o, r) :: h) ks'.
Proof.
  intros Hord Hafter. destruct (touched o r) as [k|] eqn:Ht.
  - destruct Hafter as (rest & -> & Hsub & Hk).
    assert (in_touch_order ((o, r) :: h) rest) as [Hs Ha].
    { apply (in_touch_order_sublist h o r ks); [done..|].
      intros k' Hk'. rewrite Ht. intros [= ->]. done. }
    split.
    + apply StronglySorted_cons. split; [|done].
      rewrite Forall_forall in *. intros k' Hk'.
      destruct (Ha k' Hk') as [a Hage]. exists O, a.
      rewrite age_touched by done. split_and!; [done..|].
      rewrite age_other in Hage by (rewrite Ht; intros [= ->]; done).
      destruct (age h k'); simplify_eq/=. lia.
    + apply Forall_cons. split; [|done].
      rewrite age_touched by done. by eexists.
  - apply (in_touch_order_sublist h o r ks); [done..|].
    intros k' _. by rewrite Ht.
Qed.

Lemma run_spec (c : Cache) h os :
  wf c → in_touch_order h (keys c) →
  ∃ c' h', run c h os = Some (c', h') ∧ wf c' ∧
           in_touch_order h' (keys c').
Proof.
  revert c h. induction os as [|o os IH]; intros c h Hwf Hord.
  - exists c, h. by split_and!.
  - destruct (step_spec c o Hwf) as (c1 & r & Hstep & Hwf1 & Hks).
    cbn [run]. rewrite Hstep. simpl. apply IH; [done|].
    by eapply in_touch_order_step.
Qed.

Lemma session_spec sz (os : list op) :
  0 < sz →
  ∃ c h, session sz os = Some (c, h) ∧ wf c ∧ in_touch_order h (keys c).
Proof.
  intros Hsz. unfold session.
  destruct (New sz) as [c0|] eqn:HNew.
  - destruct (wf_New sz c0 HNew) as (Hwf & _ & Hent). simpl.
    apply run_spec; [done|]. unfold keys. rewrite Hent.
    split; constructor.
  - unfold New in HNew. by rewrite bool_decide_eq_false_2 in HNew by lia.
Qed.

Lemma session_inv sz os (c : Cache) h :
  session sz os = Some (c, h) →
  0 < sz ∧ wf c ∧ in_touch_order h (keys c).
Proof.
  intros Hs. assert (0 < sz) as Hsz.
  { unfold session, New in Hs. case_bool_decide; [done|lia]. }
  split; [done|].
  destruct (session_spec sz os Hsz) as (c' & h' & Hs' & Hwf & Hord).
  by simplify_eq.
Qed.

Lemma reachable_wf (c : Cache) : reachable c → wf c.
Proof. intros (sz & os & h & Hs). by apply session_inv in Hs as (_ & ? & _). Qed.

(** ** Lookups read off the abstraction *)

Lemma Get_entry (c : Cache) p :
  wf c → p ∈ entries c →
  ∃ c', Get c (key p) = Some (c', (Some (value p), None)) ∧ wf c' ∧
        entries c' = p :: filter (λ q, key q ≠ key p) (entries c).
Proof.
  intros Hwf (e & He & Hp)%elem_of_entries.
  assert (itemMap c !! key p = Some e) as Hk.
  { apply Hwf. by rewrite Hp. }
  destruct (Get_hit_spec c (key p) e p Hwf Hk Hp) as (c' & ? & ? & _ & ?).
  by exists c'.
Qed.

(** X15: the older variant of [SetSize] returns what [SetSize]
    returns, on every cache and every argument. *)
Lemma SetSize_early_eq (c : Cache) n : SetSize_early c n = SetSize c n.
Proof.
  unfold SetSize_early, SetSize. case_bool_decide; [done|].
  repeat case_bool_decide; try done; lia.
Qed.

(** ** The properties of the specification *)

(** C1: in a reachable cache that is exactly full, inserting an absent key
    with [Set] or [Add] drops the back entry, which is the entry touched
    least recently, and nothing else; the new entry comes first and the
    count does not change. *)
Theorem insert_at_capacity_evicts_lru sz os (c : Cache) h k v :
  session sz os = Some (c, h) → Len c = Size c → itemMap c !! k = None →
  ∃ c' rest old,
    Set_ c k v = Some (c', None) ∧ Add c k v = Some (c', None) ∧
    entries c = rest ++ [old] ∧
    (∀ k', k' ∈ keys c → k' ≠ key old → younger h k' (key old)) ∧
    entries c' = Payload k v :: rest ∧
    itemMap c' !! key old = None ∧
    Len c' = Len c.
Proof.
  intros (Hsz & Hwf & Hs & _)%session_inv Hfull Hk. unfold Size in Hfull.
  destruct (add_full_spec c k v Hwf Hk)
    as (c' & rest & old & Hadd & Hwf' & Hsz' & Hent & Hent'); [lia|].
  pose proof (NoDup_keys c Hwf) as Hnd.
  unfold keys in Hnd, Hs |- *. rewrite Hent, fmap_app in Hnd, Hs |- *.
  apply NoDup_app in Hnd as (_ & Hdis & _).
  exists c', rest, old. unfold Set_, Add. rewrite Hk.
  split_and!; try done.
  - intros k' [Hin|Hin]%elem_of_app Hne.
    + eapply StronglySorted_app_1_elem_of; [exact Hs|done|by left].
    + apply list_elem_of_singleton in Hin. done.
  - apply wf_lookup_None; [done|]. unfold keys.
    rewrite Hent', fmap_cons. cbn [key].
    intros [Hko|Hin]%elem_of_cons.
    + apply wf_lookup_None in Hk; [|done]. apply Hk. unfold keys.
      rewrite Hent, fmap_app, elem_of_app. right. rewrite <- Hko. by left.
    + apply (Hdis _ Hin). by left.
  - rewrite !Len_length, <- !length_entries by done.
    rewrite Hent, Hent', length_app. simpl. lia.
Qed.

(** C3: every state reached from [New] by public calls has as many list
    elements as index entries, holds at most [Size] entries, and every
    index entry points at a list element that stores the entry's key. *)
Theorem reachable_invariants sz os (c : Cache) h :
  session sz os = Some (c, h) →
  length (lruList c) = base.size (itemMap c) ∧
  Len c <= Size c ∧
  ∀ k e, itemMap c !! k = Some e →
         e ∈ lruList c ∧ ∃ p, mem c !! e = Some p ∧ key p = k.
Proof.
  intros (_ & Hwf & _)%session_inv. split_and!.
  - by rewrite size_itemMap.
  - apply Hwf.
  - intros k e Hk.
    destruct (wf_lookup_entry c k e Hwf Hk) as (p & ? & ? & ? & _).
    eauto.
Qed.

(** C4: [SetSize n] with [n <= 0] changes nothing.  With [n > 0] the
    capacity becomes [n] and the cache keeps its [n] most recent entries:
    when it held more than [n], exactly [Len - n] entries are dropped from
    the back and [n] remain.  The index follows the list: the result is
    well formed, the index holds exactly the keys that are kept, every kept
    entry is still served by [Get], and every dropped key is gone from the
    index, so that [Get] on it returns [ErrNotFound]. *)
Theorem SetSize_correct (c : Cache) n :
  wf c →
  ∃ c', SetSize c n = Some c' ∧
    (n <= 0 → c' = c) ∧
    (0 < n →
       Size c' = n ∧
       wf c' ∧
       entries c' = take (Z.to_nat n) (entries c) ∧
       (∀ k, is_Some (itemMap c' !! k) ↔ k ∈ keys c') ∧
       (∀ p, p ∈ entries c' →
             ∃ c'', Get c' (key p) = Some (c'', (Some (value p), None))) ∧
       (Len c <= n → entries c' = entries c) ∧
       (n < Len c →
          Len c' = n ∧
          ∃ evicted, entries c = entries c' ++ evicted ∧
                     Z.of_nat (length evicted) = Len c - n ∧
                     ∀ p, p ∈ evicted →
                          itemMap c' !! key p = None ∧
                          Get c' (key p)
                          = Some (c', (None, Some ErrNotFound)))).
Proof.
  intros Hwf. destruct (decide (n <= 0)) as [Hn|Hn].
  - exists c. unfold SetSize. rewrite bool_decide_eq_true_2 by done.
    split_and!; [done|done|lia].
  - destruct (SetSize_spec c n Hwf) as (c' & HS & Hwf' & Hsz & Hent);
      [lia|].
    exists c'. split_and!; [done|lia|]. intros _.
    pose proof (length_entries c Hwf) as Hlen.
    pose proof (length_entries c' Hwf') as Hlen'.
    rewrite !Len_length, <- Hlen, <- Hlen'.
    split_and!; [done|done|done| | | |].
    + intros k. by apply wf_lookup.
    + intros p Hp. destruct (Get_entry c' p Hwf' Hp) as (c'' & HG & _).
      by exists c''.
    + intros Hle. rewrite Hent. apply take_ge. lia.
    + intros Hlt. split.
      * rewrite Hent, length_take. lia.
      * exists (drop (Z.to_nat n) (entries c)).
        rewrite Hent, take_drop, length_drop. split_and!; [done|lia|].
        intros p Hp.
        assert (itemMap c' !! key p = None) as Hgone.
        { apply wf_lookup_None; [done|]. unfold keys. rewrite Hent.
          pose proof (NoDup_keys c Hwf) as Hnd. unfold keys in Hnd.
          rewrite <- (take_drop (Z.to_nat n) (entries c)), fmap_app in Hnd.
          apply NoDup_app in Hnd as (_ & Hdis & _).
          intros Hin. apply (Hdis _ Hin). apply list_elem_of_fmap. eauto. }
        split; [done|]. by apply Get_miss_spec.
Qed.

(** C5: [Set k v] never fails, and a [Get k] right after it is a hit that
    returns [v].  A present key is overwritten and moved to the front; an
    absent key is put in front, after the back entry was dropped when the
    cache was full. *)
Theorem Set_then_Get (c : Cache) k v :
  wf c →
  ∃ c1 c2,
    Set_ c k v = Some (c1, None) ∧
    Get c1 k = Some (c2, (Some v, None)) ∧
    (k ∈ keys c →
       entries c1 = Payload k v :: filter (λ q, key q ≠ k) (entries c)) ∧
    (k ∉ keys c → Len c < Size c →
       entries c1 = Payload k v :: entries c) ∧
    (k ∉ keys c → Len c >= Size c →
       ∃ rest old, entries c = rest ++ [old] ∧
                   entries c1 = Payload k v :: rest).
Proof.
  intros Hwf.
  assert (∃ c1 tl, Set_ c k v = Some (c1, None) ∧ wf c1 ∧
            entries c1 = Payload k v :: tl ∧
            (k ∈ keys c → tl = filter (λ q, key q ≠ k) (entries c)) ∧
            (k ∉ keys c → Len c < Size c → tl = entries c) ∧
            (k ∉ keys c → Len c >= Size c →
               ∃ old, entries c = tl ++ [old]))
    as (c1 & tl & HSet & Hwf1 & Hent & Hhit & Hroom & Hfull).
  { destruct (itemMap c !! k) as [e|] eqn:Hk.
    - assert (k ∈ keys c) as Hin by (apply wf_lookup; eauto).
      destruct (Set_hit_spec c k v e Hwf Hk) as (c1 & ? & ? & _ & ?).
      exists c1. eexists. by split_and!.
    - pose proof Hk as Hnk%wf_lookup_None; [|done].
      unfold Set_. rewrite Hk.
      destruct (decide (Len c < size c)) as [Hlt|Hge].
      + destruct (add_room_spec c k v Hwf Hk Hlt) as (c1 & ? & ? & _ & ?).
        exists c1. eexists. split_and!; try done; unfold Size; lia.
      + destruct (add_full_spec c k v Hwf Hk)
          as (c1 & rest & old & ? & ? & _ & ? & ?); [lia|].
        exists c1, rest. split_and!; try done; try (unfold Size; lia).
        eauto. }
  assert (Payload k v ∈ entries c1) as Hin by (rewrite Hent; left).
  destruct (Get_entry c1 _ Hwf1 Hin) as (c2 & HGet & _).
  exists c1, c2. split_and!; try done.
  - intros Hk. rewrite Hent. f_equal. auto.
  - intros Hk Hlt. rewrite Hent. f_equal. auto.
  - intros Hk Hge. destruct (Hfull Hk Hge) as [old Hold]. eauto.
Qed.

(** C6: [Add] on a present key returns [ErrNotStored] and leaves the cache
    as it was; so after [Add k v1] has stored, [Add k v2] is refused and
    [Get k] still returns [v1]. *)
Theorem Add_present_unchanged (c : Cache) k v1 v2 :
  (is_Some (itemMap c !! k) → Add c k v2 = Some (c, Some ErrNotStored)) ∧
  (wf c → itemMap c !! k = None →
     ∃ c1 c2, Add c k v1 = Some (c1, None) ∧
              Add c1 k v2 = Some (c1, Some ErrNotStored) ∧
              Get c1 k = Some (c2, (Some v1, None))).
Proof.
  split.
  - intros [e He]. unfold Add. by rewrite He.
  - intros Hwf Hk.
    destruct (add_spec c k v1 Hwf Hk)
      as (c1 & Hadd & Hwf1 & _ & _).
    assert (Payload k v1 ∈ entries c1) as Hin.
    { destruct (decide (Len c < size c)) as [Hlt|Hge].
      - destruct (add_room_spec c k v1 Hwf Hk Hlt)
          as (c1' & Hadd' & _ & _ & Hent').
        rewrite Hadd in Hadd'. injection Hadd' as <-. rewrite Hent'. left.
      - destruct (add_full_spec c k v1 Hwf Hk)
          as (c1' & rest & old & Hadd' & _ & _ & _ & Hent'); [lia|].
        rewrite Hadd in Hadd'. injection Hadd' as <-. rewrite Hent'. left. }
    destruct (Get_entry c1 _ Hwf1 Hin) as (c2 & HGet & _).
    assert (is_Some (itemMap c1 !! k)) as [e He].
    { apply wf_lookup; [done|]. unfold keys.
      apply list_elem_of_fmap. by exists (Payload k v1). }
    exists c1, c2. unfold Add at 1 2. rewrite Hk, He. by split_and!.
Qed.

(** C7: [Remove k] succeeds exactly when [k] is present; it then takes
    [k] out of the list and of the index, so that [Get k] and a second
    [Remove k] both return [ErrNotFound].  On an absent key it returns
    [ErrNotFound] and changes nothing. *)
Theorem Remove_correct (c : Cache) k :
  wf c →
  (is_Some (itemMap c !! k) →
     ∃ c', Remove c k = Some (c', None) ∧
           itemMap c' !! k = None ∧
           entries c' = filter (λ q, key q ≠ k) (entries c) ∧
           (k ∉ keys c') ∧
           Get c' k = Some (c', (None, Some ErrNotFound)) ∧
           Remove c' k = Some (c', Some ErrNotFound)) ∧
  (itemMap c !! k = None → Remove c k = Some (c, Some ErrNotFound)).
Proof.
  intros Hwf. split; [|apply Remove_miss_spec].
  intros [e Hk].
  destruct (Remove_hit_spec c k e Hwf Hk)
    as (c' & HR & Hwf' & _ & Hm & _ & Hent).
  assert (itemMap c' !! k = None) as Hk'
    by (rewrite Hm; apply lookup_delete_eq).
  exists c'. split_and!; try done.
  - by apply wf_lookup_None.
  - by apply Get_miss_spec.
  - by apply Remove_miss_spec.
Qed.

(** C8: after [Purge] the cache is empty, its capacity is what it was,
    and [Get] misses on every key. *)
Theorem Purge_correct (c : Cache) k :
  Len (Purge c) = 0 ∧ Size (Purge c) = Size c ∧
  entries (Purge c) = [] ∧
  Get (Purge c) k = Some (Purge c, (None, Some ErrNotFound)).
Proof. split_and!; try done. Qed.

(** C9: [New sz] panics exactly when [sz <= 0]; for [sz > 0] it returns a
    cache of capacity [sz] on which every sequence of calls runs to its
    end without a panic. *)
Theorem New_panics_iff_nonpositive sz :
  (New sz = (None : option Cache) ↔ sz <= 0) ∧
  (0 < sz →
     ∃ c : Cache, New sz = Some c ∧ Size c = sz ∧
                  ∀ os, is_Some (run c [] os)).
Proof.
  split.
  - unfold New. case_bool_decide; split; (done || lia).
  - intros Hsz. unfold New. rewrite bool_decide_eq_false_2 by lia.
    eexists. split_and!; [done..|]. intros os.
    destruct (session_spec sz os Hsz) as (c' & h & Hs & _).
    unfold session, New in Hs. rewrite bool_decide_eq_false_2 in Hs by lia.
    simpl in Hs. by rewrite Hs.
Qed.

(** C10: a cache fresh from [New sz], [sz > 0], is empty: [Len] is 0,
    [Size] is [sz] and [Get] misses on every key. *)
Theorem New_is_empty sz :
  0 < sz →
  ∃ c : Cache, New sz = Some c ∧ Len c = 0 ∧ Size c = sz ∧
               ∀ k, Get c k = Some (c, (None, Some ErrNotFound)).
Proof.
  intros Hsz. unfold New. rewrite bool_decide_eq_false_2 by lia.
  eexists. by split_and!.
Qed.

End proofs.

(** ** Touch order, and the examples of the specification *)

Open Scope string_scope.
Open Scope list_scope.

Lemma session_ab :
  session 2 [OSet "a" 1; OSet "b" 2] = Some (cache_ab, history_ab).
Proof. vm_compute. reflexivity. Qed.

Lemma wf_cache_ab : wf cache_ab.
Proof. exact (proj1 (proj2 (session_inv _ _ _ _ session_ab))). Qed.


(** ** The theorems at concrete inputs *)

Lemma insert_at_capacity_evicts_lru_witness :
  session 2 [OSet "a" 1; OSet "b" 2] = Some (cache_ab, history_ab) ∧
  Len cache_ab = Size cache_ab ∧
  itemMap cache_ab !! "c" = None ∧
  ∃ c' rest old,
    Set_ cache_ab "c" 3 = Some (c', None) ∧
    Add cache_ab "c" 3 = Some (c', None) ∧
    entries cache_ab = rest ++ [old] ∧
    (∀ k', k' ∈ keys cache_ab → k' ≠ key old →
           younger history_ab k' (key old)) ∧
    entries c' = Payload "c" 3 :: rest ∧
    itemMap c' !! key old = None ∧
    Len c' = Len cache_ab.
Proof.
  split_and!; [vm_compute; reflexivity..|].
  apply (insert_at_capacity_evicts_lru 2 [OSet "a" 1; OSet "b" 2]
           cache_ab history_ab "c" 3); vm_compute; reflexivity.
Defined.


Lemma reachable_invariants_witness :
  session 2 [OSet "a" 1; OSet "b" 2] = Some (cache_ab, history_ab) ∧
  length (lruList cache_ab) = base.size (itemMap cache_ab) ∧
  Len cache_ab <= Size cache_ab ∧
  ∀ k e, itemMap cache_ab !! k = Some e →
         e ∈ lruList cache_ab ∧
         ∃ p, mem cache_ab !! e = Some p ∧ key p = k.
Proof.
  split; [vm_compute; reflexivity|].
  apply (reachable_invariants 2 [OSet "a" 1; OSet "b" 2]
           cache_ab history_ab).
  vm_compute; reflexivity.
Defined.

Lemma SetSize_correct_witness :
  wf cache_ab ∧
  ∃ c', SetSize cache_ab 1 = Some c' ∧
    (1 <= 0 → c' = cache_ab) ∧
    (0 < 1 →
       Size c' = 1 ∧
       wf c' ∧
       entries c' = take (Z.to_nat 1) (entries cache_ab) ∧
       (∀ k, is_Some (itemMap c' !! k) ↔ k ∈ keys c') ∧
       (∀ p, p ∈ entries c' →
             ∃ c'', Get c' (key p) = Some (c'', (Some (value p), None))) ∧
       (Len cache_ab <= 1 → entries c' = entries cache_ab) ∧
       (1 < Len cache_ab →
          Len c' = 1 ∧
          ∃ evicted, entries cache_ab = entries c' ++ evicted ∧
                     Z.of_nat (length evicted) = Len cache_ab - 1 ∧
                     ∀ p, p ∈ evicted →
                          itemMap c' !! key p = None ∧
                          Get c' (key p)
                          = Some (c', (None, Some ErrNotFound)))).
Proof.
  split; [exact wf_cache_ab|].
  apply (SetSize_correct cache_ab 1). exact wf_cache_ab.
Defined.

Lemma Set_then_Get_witness :
  wf cache_ab ∧
  ∃ c1 c2,
    Set_ cache_ab "c" 3 = Some (c1, None) ∧
    Get c1 "c" = Some (c2, (Some 3, None)) ∧
    ("c" ∈ keys cache_ab →
       entries c1 = Payload "c" 3
                    :: filter (λ q, key q ≠ "c") (entries cache_ab)) ∧
    ("c" ∉ keys cache_ab → Len cache_ab < Size cache_ab →
       entries c1 = Payload "c" 3 :: entries cache_ab) ∧
    ("c" ∉ keys cache_ab → Len cache_ab >= Size cache_ab →
       ∃ rest old, entries cache_ab = rest ++ [old] ∧
                   entries c1 = Payload "c" 3 :: rest).
Proof.
  split; [exact wf_cache_ab|].
  apply (Set_then_Get cache_ab "c" 3). exact wf_cache_ab.
Defined.

Lemma Add_present_unchanged_witness :
  is_Some (itemMap cache_ab !! "a") ∧
  Add cache_ab "a" 7 = Some (cache_ab, Some ErrNotStored).
Proof.
  assert (is_Some (itemMap cache_ab !! "a")) as Ha
    by (exists 0%nat; vm_compute; reflexivity).
  split; [exact Ha|].
  exact (proj1 (Add_present_unchanged cache_ab "a" 1 7) Ha).
Defined.

Lemma Remove_correct_witness :
  wf cache_ab ∧ is_Some (itemMap cache_ab !! "a") ∧
  ∃ c', Remove cache_ab "a" = Some (c', None) ∧
        itemMap c' !! "a" = None ∧
        entries c' = filter (λ q, key q ≠ "a") (entries cache_ab) ∧
        ("a" ∉ keys c') ∧
        Get c' "a" = Some (c', (None, Some ErrNotFound)) ∧
        Remove c' "a" = Some (c', Some ErrNotFound).
Proof.
  assert (is_Some (itemMap cache_ab !! "a")) as Ha
    by (exists 0%nat; vm_compute; reflexivity).
  split_and!; [exact wf_cache_ab|exact Ha|].
  exact (proj1 (Remove_correct cache_ab "a" wf_cache_ab) Ha).
Defined.

Lemma New_panics_iff_nonpositive_witness :
  0 < 2 ∧
  ∃ c : Cache string Z, New 2 = Some c ∧ Size c = 2 ∧
                        ∀ os, is_Some (run c [] os).
Proof.
  split; [lia|].
  apply (proj2 (New_panics_iff_nonpositive (Key:=string) (Value:=Z) 2)).
  lia.
Defined.

Lemma New_is_empty_witness :
  0 < 2 ∧
  ∃ c : Cache string Z, New 2 = Some c ∧ Len c = 0 ∧ Size c = 2 ∧
                        ∀ k, Get c k = Some (c, (None, Some ErrNotFound)).
Proof.
  split; [lia|]. apply (New_is_empty (Key:=string) (Value:=Z) 2). lia.
Defined.

(** ** Further properties of the code *)

Section more_proofs.
Context {Key : Type} `{Countable Key} {Value : Type}.

Local Abbreviation payload := (payload Key Value).
Local Abbreviation Cache := (Cache Key Value).
Local Abbreviation op := (op Key Value).
Local Abbreviation reply := (reply Value).

Lemma entry_unique (c : Cache) (p1 p2 : payload) :
  wf c → p1 ∈ entries c → p2 ∈ entries c → key p1 = key p2 → p1 = p2.
Proof.
  intros Hwf (e1 & He1 & Hp1)%elem_of_entries
         (e2 & He2 & Hp2)%elem_of_entries Hk.
  assert (e1 = e2) as -> by (by eapply (wf_key_inj c e1 e2 p1 p2)).
  congruence.
Qed.

Lemma entries_split (c : Cache) (p : payload) :
  wf c → p ∈ entries c →
  entries c ≡ₚ p :: filter (λ q, key q ≠ key p) (entries c).
Proof.
  intros Hwf Hp. pose proof (NoDup_keys c Hwf) as Hnd. unfold keys in Hnd.
  apply list_elem_of_split in Hp as (l1 & l2 & Hl). rewrite Hl in Hnd |- *.
  rewrite fmap_app, fmap_cons in Hnd.
  apply NoDup_app in Hnd as (_ & Hdis & [Hp2 _]%NoDup_cons).
  rewrite filter_app, filter_cons_False by tauto.
  rewrite !filter_all.
  - symmetry. apply Permutation_middle.
  - intros q Hq Hk. apply Hp2. rewrite <- Hk.
    apply list_elem_of_fmap. eauto.
  - intros q Hq Hk. apply (Hdis (key q)).
    + apply list_elem_of_fmap. eauto.
    + rewrite Hk. left.
Qed.

(** X1: The second sentence of the "Principle": in every state reached from
    [New], each element of the list has a payload whose key the index maps
    back to that element; no element and no key occurs twice. *)
Theorem elements_are_indexed sz os (c : Cache) h :
  session sz os = Some (c, h) →
  NoDup (lruList c) ∧ NoDup (keys c) ∧
  ∀ e, e ∈ lruList c →
       ∃ p, mem c !! e = Some p ∧ itemMap c !! key p = Some e.
Proof.
  intros (_ & Hwf & _)%session_inv. split_and!.
  - apply Hwf.
  - by apply NoDup_keys.
  - intros e He. destruct (wf_mem c Hwf e He) as [p Hp].
    exists p. split; [done|]. apply Hwf. by rewrite Hp.
Qed.

(** X2: [Get] reads the entry sequence: it returns [(v, nil)] exactly when
    [(k, v)] is an entry and [ErrNotFound] exactly when no entry has key
    [k].  It never changes the capacity, the index, the payloads or the set
    of entries, and a miss leaves the cache as it is. *)
Theorem Get_reads_entries (c : Cache) k :
  wf c →
  ∃ c' v err,
    Get c k = Some (c', (v, err)) ∧
    size c' = size c ∧ itemMap c' = itemMap c ∧ mem c' = mem c ∧
    entries c' ≡ₚ entries c ∧
    (∀ w, v = Some w ∧ err = None ↔ Payload k w ∈ entries c) ∧
    (err = Some ErrNotFound ↔ k ∉ keys c) ∧
    (k ∉ keys c → c' = c ∧ v = None).
Proof.
  intros Hwf. destruct (itemMap c !! k) as [e|] eqn:Hk.
  - destruct (wf_lookup_entry c k e Hwf Hk) as (p & Hp & Hkp & He & Hin).
    assert (k ∈ keys c) as Hkin by (apply wf_lookup; eauto).
    destruct (Get_hit_spec c k e p Hwf Hk Hp) as (c' & HG & _ & _ & Hent).
    pose proof HG as HG'. unfold Get in HG'. rewrite Hk, Hp in HG'.
    simpl in HG'. injection HG' as <-.
    eexists _, _, _. split; [exact HG|]. split_and!; try done.
    + rewrite Hent, <- Hkp. symmetry. by apply entries_split.
    + intros w. split.
      * intros [[= <-] _]. destruct p as [k' w]. simpl in *. by subst.
      * intros Hw. split; [|done]. f_equal.
        by rewrite (entry_unique c p (Payload k w) Hwf Hin Hw Hkp).
  - pose proof Hk as Hnk%wf_lookup_None; [|done].
    rewrite Get_miss_spec by done. eexists _, _, _.
    split; [done|]. split_and!; try done.
    intros w. split; [by intros [? _]|]. intros Hw. exfalso. apply Hnk.
    unfold keys. apply list_elem_of_fmap. by exists (Payload k w).
Qed.

Lemma MoveToFront_idemp (l : list Element) e :
  List_.MoveToFront (List_.MoveToFront l e) e = List_.MoveToFront l e.
Proof.
  unfold List_.MoveToFront.
  destruct (bool_decide (e ∉ l) || bool_decide (head l = Some e)) eqn:Hb.
  - by rewrite ?Hb.
  - cbn [head].
    rewrite (bool_decide_eq_true_2 (Some e = Some e)) by done.
    by rewrite orb_true_r.
Qed.

(** X3: Reading a key twice: the second [Get] gives the same reply as the first
    and leaves the cache exactly as the first left it. *)
Theorem Get_twice (c c1 : Cache) k r :
  Get c k = Some (c1, r) → Get c1 k = Some (c1, r).
Proof.
  unfold Get. destruct (itemMap c !! k) as [e|] eqn:Hk.
  - destruct (mem c !! e) as [p|] eqn:Hp; [|done]. simpl.
    intros [= <- <-]. cbn [with_lruList itemMap mem lruList].
    rewrite Hk, Hp. simpl. unfold with_lruList. cbn [size itemMap mem lruList].
    by rewrite MoveToFront_idemp.
  - intros [= <- <-]. by rewrite Hk.
Qed.

Lemma Set_shape (c : Cache) k v1 v2 :
  wf c →
  ∃ c1 c2 tl,
    Set_ c k v1 = Some (c1, None) ∧ Set_ c k v2 = Some (c2, None) ∧
    wf c1 ∧ wf c2 ∧ size c1 = size c ∧ size c2 = size c ∧
    entries c1 = Payload k v1 :: tl ∧ entries c2 = Payload k v2 :: tl ∧
    k ∉ key <$> tl.
Proof.
  intros Hwf. destruct (itemMap c !! k) as [e|] eqn:Hk.
  - destruct (Set_hit_spec c k v1 e Hwf Hk) as (c1 & ? & ? & ? & ?).
    destruct (Set_hit_spec c k v2 e Hwf Hk) as (c2 & ? & ? & ? & ?).
    exists c1, c2. eexists. split_and!; try done. apply keys_filter.
  - pose proof Hk as Hnk%wf_lookup_None; [|done].
    unfold Set_. rewrite Hk.
    destruct (decide (Len c < size c)) as [Hlt|Hge].
    + destruct (add_room_spec c k v1 Hwf Hk Hlt) as (c1 & ? & ? & ? & ?).
      destruct (add_room_spec c k v2 Hwf Hk Hlt) as (c2 & ? & ? & ? & ?).
      exists c1, c2. eexists. by split_and!.
    + destruct (add_full_spec c k v1 Hwf Hk)
        as (c1 & r1 & o1 & ? & ? & ? & He1 & ?); [lia|].
      destruct (add_full_spec c k v2 Hwf Hk)
        as (c2 & r2 & o2 & ? & ? & ? & He2 & ?); [lia|].
      rewrite He1 in He2. apply app_inj_tail in He2 as [-> _].
      exists c1, c2, r2. split_and!; try done.
      intros Hin. apply Hnk. unfold keys.
      rewrite He1, fmap_app, elem_of_app. by left.
Qed.

(** X4: The last write wins: [Set k v1] followed by [Set k v2] leaves the same
    entries, in the same order, and the same capacity as [Set k v2] alone. *)
Theorem Set_last_write_wins (c : Cache) k v1 v2 :
  wf c →
  ∃ c1 c2 c2',
    Set_ c k v1 = Some (c1, None) ∧ Set_ c1 k v2 = Some (c2, None) ∧
    Set_ c k v2 = Some (c2', None) ∧
    entries c2 = entries c2' ∧ size c2 = size c2'.
Proof.
  intros Hwf.
  destruct (Set_shape c k v1 v2 Hwf)
    as (c1 & c2' & tl & HS1 & HS2 & Hwf1 & _ & Hsz1 & Hsz2 & He1 & He2 & Hk).
  assert (is_Some (itemMap c1 !! k)) as [e He].
  { apply wf_lookup; [done|]. unfold keys. rewrite He1, fmap_cons. left. }
  destruct (Set_hit_spec c1 k v2 e Hwf1 He) as (c2 & HS & _ & Hsz & Hent).
  exists c1, c2, c2'. split_and!; [done..| |congruence].
  rewrite Hent, He1, He2, filter_cons_False by (cbn [key]; tauto).
  f_equal. apply filter_all. intros q Hq Hkq. apply Hk.
  apply list_elem_of_fmap. eauto.
Qed.

(** X5: Insert and remove: when the cache has room, [Add] of an absent key
    followed by [Remove] of that key restores the list, the index, the
    entries and the capacity. *)
Theorem Add_then_Remove (c : Cache) k v :
  wf c → itemMap c !! k = None → Len c < Size c →
  ∃ c1 c2,
    Add c k v = Some (c1, None) ∧ Remove c1 k = Some (c2, None) ∧
    lruList c2 = lruList c ∧ itemMap c2 = itemMap c ∧
    entries c2 = entries c ∧ size c2 = size c.
Proof.
  intros Hwf Hk Hlt. unfold Size in Hlt.
  destruct (add_room_spec c k v Hwf Hk Hlt) as (c1 & Hadd & Hwf1 & Hsz1 & He1).
  pose proof Hadd as Hc1. unfold add in Hc1. fold (Len c) in Hc1.
  rewrite bool_decide_eq_false_2 in Hc1 by lia. injection Hc1 as Hc1.
  assert (itemMap c1 !! k = Some (length (mem c))) as Hk1.
  { rewrite <- Hc1. cbn [itemMap]. apply lookup_insert_eq. }
  destruct (Remove_hit_spec c1 k _ Hwf1 Hk1)
    as (c2 & HR & _ & Hsz2 & Hm2 & Hl2 & He2).
  exists c1, c2. unfold Add. rewrite Hk.
  assert (length (mem c) ∉ lruList c) as Hfresh.
  { intros [p Hp%lookup_lt_Some]%(wf_mem c Hwf). lia. }
  split_and!; [done..| | | |congruence].
  - rewrite Hl2, <- Hc1. cbn [lruList]. unfold List_.PushFront, List_.Remove.
    rewrite filter_cons_False by tauto. by apply Remove_absent.
  - rewrite Hm2, <- Hc1. cbn [itemMap]. by apply delete_insert_id.
  - rewrite He2, He1, filter_cons_False by (cbn [key]; tauto).
    apply filter_all. intros q Hq Hkq.
    apply wf_lookup_None in Hk; [|done]. apply Hk. unfold keys.
    apply list_elem_of_fmap. eauto.
Qed.

(** X6: What [Len] counts: inserting an absent key gives
    [min (Len + 1) Size]; [Set] on a present key keeps [Len]; [Remove] of a
    present key takes one off. *)
Theorem Len_accounting (c : Cache) k v :
  wf c →
  (itemMap c !! k = None →
     ∃ c', Add c k v = Some (c', None) ∧
           Len c' = Z.min (Len c + 1) (Size c)) ∧
  (is_Some (itemMap c !! k) →
     ∃ c1 c2, Set_ c k v = Some (c1, None) ∧ Len c1 = Len c ∧
              Remove c k = Some (c2, None) ∧ Len c2 = Len c - 1).
Proof.
  intros Hwf. pose proof (length_entries c Hwf) as Hlen.
  pose proof (wf_cap c Hwf) as Hcap. unfold Size. split.
  - intros Hk. unfold Add. rewrite Hk.
    destruct (decide (Len c < size c)) as [Hlt|Hge].
    + destruct (add_room_spec c k v Hwf Hk Hlt) as (c' & ? & Hwf' & _ & He).
      exists c'. split; [done|].
      rewrite !Len_length, <- (length_entries c'), <- Hlen, He in * by done.
      simpl. lia.
    + destruct (add_full_spec c k v Hwf Hk)
        as (c' & rest & old & ? & Hwf' & _ & He & He'); [lia|].
      exists c'. split; [done|].
      rewrite !Len_length, <- (length_entries c'), <- Hlen in * by done.
      rewrite He' in *. rewrite He, length_app in *. simpl in *. lia.
  - intros [e Hk].
    destruct (wf_lookup_entry c k e Hwf Hk) as (p & _ & Hkp & _ & Hp).
    pose proof (entries_split c p Hwf Hp) as Hperm.
    apply Permutation_length in Hperm. rewrite Hkp in Hperm. simpl in Hperm.
    destruct (Set_hit_spec c k v e Hwf Hk) as (c1 & ? & Hwf1 & _ & He1).
    destruct (Remove_hit_spec c k e Hwf Hk)
      as (c2 & ? & Hwf2 & _ & _ & _ & He2).
    exists c1, c2.
    rewrite !Len_length, <- (length_entries c1), <- (length_entries c2),
      <- Hlen, He1, He2 by done.
    simpl. split_and!; [done|lia|done|lia].
Qed.

(** X7: Resizing twice: [SetSize n] then [SetSize m], both positive, keeps the
    [min n m] most recent entries and ends with capacity [m]; repeating
    [SetSize n] changes nothing any more. *)
Theorem SetSize_twice (c : Cache) n m :
  wf c → 0 < n → 0 < m →
  ∃ c1 c2,
    SetSize c n = Some c1 ∧ SetSize c1 m = Some c2 ∧
    Size c2 = m ∧
    entries c2 = take (Z.to_nat (Z.min n m)) (entries c) ∧
    SetSize c1 n = Some c1.
Proof.
  intros Hwf Hn Hm.
  destruct (SetSize_spec c n Hwf Hn) as (c1 & HS1 & Hwf1 & Hsz1 & He1).
  destruct (SetSize_spec c1 m Hwf1 Hm) as (c2 & HS2 & Hwf2 & Hsz2 & He2).
  exists c1, c2. split_and!; try done.
  - rewrite He2, He1, take_take. f_equal. lia.
  - pose proof (wf_cap c1 Hwf1) as Hcap. unfold SetSize.
    rewrite bool_decide_eq_false_2 by lia. fold (Len c1).
    rewrite bool_decide_eq_false_2 by lia. simpl.
    destruct c1. simpl in *. by subst.
Qed.

(** X8: Where the new entry lives.  At capacity [add] allocates nothing: the
    back element is moved to the front and its payload overwritten.  With
    room a new element is allocated and pushed in front.  Either way the
    index maps the new key to the front element. *)
Theorem add_reuses_back_element (c : Cache) k v :
  wf c → itemMap c !! k = None →
  ∃ c', add c k v = Some (c', None) ∧
    itemMap c' !! k = head (lruList c') ∧
    (Len c >= Size c →
       ∃ e rest, lruList c = rest ++ [e] ∧ lruList c' = e :: rest ∧
                 mem c' = <[e := Payload k v]> (mem c)) ∧
    (Len c < Size c →
       lruList c' = length (mem c) :: lruList c ∧
       mem c' = mem c ++ [Payload k v] ∧
       length (mem c) ∉ lruList c).
Proof.
  intros Hwf Hk. unfold add, Size. fold (Len c).
  destruct (decide (Len c >= size c)) as [Hge|Hlt].
  - rewrite bool_decide_eq_true_2 by done.
    destruct (Back_is_Some _ (full_nonempty c Hwf Hge)) as [e He].
    rewrite He. simpl. pose proof He as [rest Hl]%Back_Some.
    assert (e ∈ lruList c) as Hin.
    { rewrite Hl. apply elem_of_app. right. by left. }
    destruct (wf_mem c Hwf e Hin) as [p Hp]. rewrite Hp. simpl.
    assert (List_.MoveToFront (lruList c) e = e :: rest) as Hmv.
    { rewrite MoveToFront_eq by (done || apply Hwf). f_equal.
      rewrite Hl. apply Remove_back. rewrite <- Hl. apply Hwf. }
    eexists. split; [done|]. cbn [itemMap lruList mem]. rewrite Hmv.
    split_and!; [apply lookup_insert_eq| |lia].
    intros _. by exists e, rest.
  - rewrite bool_decide_eq_false_2 by done.
    eexists. split; [done|]. cbn [itemMap lruList mem].
    split_and!; [apply lookup_insert_eq|lia|]. intros _.
    split_and!; try done.
    intros [p Hp%lookup_lt_Some]%(wf_mem c Hwf). lia.
Qed.

Lemma add_entries (c : Cache) k v :
  wf c → itemMap c !! k = None →
  ∃ c' tl, add c k v = Some (c', None) ∧ wf c' ∧ size c' = size c ∧
           entries c' = Payload k v :: tl ∧ tl `sublist_of` entries c.
Proof.
  intros Hwf Hk. destruct (decide (Len c < size c)) as [Hlt|Hge].
  - destruct (add_room_spec c k v Hwf Hk Hlt) as (c' & ? & ? & ? & ?).
    exists c', (entries c). by split_and!.
  - destruct (add_full_spec c k v Hwf Hk)
      as (c' & rest & old & ? & ? & ? & He & ?); [lia|].
    exists c', rest. split_and!; try done.
    rewrite He. by apply sublist_inserts_r.
Qed.

Lemma step_entries_spec (c : Cache) (o : op) :
  wf c →
  ∃ c' r, step c o = Some (c', r) ∧ wf c' ∧
    (size c' = size c ∨ ∃ n, o = OSetSize n ∧ 0 < n ∧ size c' = n) ∧
    (∀ p, p ∈ entries c' →
          p ∈ entries c ∨
          ∃ v, (o = OSet (key p) v ∨ o = OAdd (key p) v) ∧
               value p = v ∧ r = RError None).
Proof.
  intros Hwf. destruct o as [k|k v|k v|k|n| | |]; cbn [step].
  - destruct (itemMap c !! k) as [e|] eqn:Hk.
    + destruct (wf_lookup_entry c k e Hwf Hk) as (p & Hp & Hkp & _ & Hin).
      destruct (Get_hit_spec c k e p Hwf Hk Hp)
        as (c' & -> & Hwf' & Hsz & Hent).
      eexists _, _. split_and!; [done|done|by left|].
      intros q. rewrite Hent.
      intros [->|[_ Hq]%list_elem_of_filter]%elem_of_cons; by left.
    + rewrite Get_miss_spec by done.
      eexists _, _. split_and!; [done|done|by left|]. intros q; by left.
  - destruct (itemMap c !! k) as [e|] eqn:Hk.
    + destruct (Set_hit_spec c k v e Hwf Hk)
        as (c' & -> & Hwf' & Hsz & Hent).
      eexists _, _. split_and!; [done|done|by left|].
      intros q. rewrite Hent.
      intros [->|[_ Hq]%list_elem_of_filter]%elem_of_cons; [|by left].
      right. exists v. cbn [key value]. by split_and!; [left|..].
    + destruct (add_entries c k v Hwf Hk)
        as (c' & tl & Hadd & Hwf' & Hsz & Hent & Hsub).
      unfold Set_. rewrite Hk, Hadd. simpl.
      eexists _, _. split_and!; [done|done|by left|].
      intros q. rewrite Hent. intros [->|Hq]%elem_of_cons.
      * right. exists v. cbn [key value]. by split_and!; [left|..].
      * left. by apply (sublist_subseteq _ _ Hsub).
  - destruct (itemMap c !! k) as [e|] eqn:Hk.
    + unfold Add. rewrite Hk. simpl.
      eexists _, _. split_and!; [done|done|by left|]. intros q; by left.
    + destruct (add_entries c k v Hwf Hk)
        as (c' & tl & Hadd & Hwf' & Hsz & Hent & Hsub).
      unfold Add. rewrite Hk, Hadd. simpl.
      eexists _, _. split_and!; [done|done|by left|].
      intros q. rewrite Hent. intros [->|Hq]%elem_of_cons.
      * right. exists v. cbn [key value]. by split_and!; [right|..].
      * left. by apply (sublist_subseteq _ _ Hsub).
  - destruct (itemMap c !! k) as [e|] eqn:Hk.
    + destruct (Remove_hit_spec c k e Hwf Hk)
        as (c' & -> & Hwf' & Hsz & _ & _ & Hent).
      eexists _, _. split_and!; [done|done|by left|].
      intros q. rewrite Hent. intros [_ Hq]%list_elem_of_filter. by left.
    + rewrite Remove_miss_spec by done.
      eexists _, _. split_and!; [done|done|by left|]. intros q; by left.
  - destruct (decide (n <= 0)) as [Hn|Hn].
    + unfold SetSize. rewrite bool_decide_eq_true_2 by done.
      eexists _, _. split_and!; [done|done|by left|]. intros q; by left.
    + destruct (SetSize_spec c n Hwf) as (c' & -> & Hwf' & Hsz & Hent);
        [lia|].
      eexists _, _. split_and!; [done|done| |].
      * right. exists n. split_and!; [done|lia|done].
      * intros q. rewrite Hent. intros Hq. left.
        eapply sublist_subseteq; [apply sublist_take|done].
  - eexists _, _. split_and!; [done|by apply wf_Purge|by left|].
    intros q Hq. by apply elem_of_nil in Hq.
  - eexists _, _. split_and!; [done|done|by left|]. intros q; by left.
  - eexists _, _. split_and!; [done|done|by left|]. intros q; by left.
Qed.

(** X9: No call invents or alters an entry: every entry held after a call was
    held before it with the same value, or is the pair this very call wrote
    with [Set] or with an [Add] that stored. *)
Theorem step_keeps_or_writes (c c' : Cache) (o : op) r p :
  wf c → step c o = Some (c', r) → p ∈ entries c' →
  p ∈ entries c ∨
  ∃ v, (o = OSet (key p) v ∨ o = OAdd (key p) v) ∧
       value p = v ∧ r = RError None.
Proof.
  intros Hwf Hstep Hp.
  destruct (step_entries_spec c o Hwf) as (c1 & r1 & Hs & _ & _ & Hent).
  rewrite Hstep in Hs. injection Hs as <- <-. by apply Hent.
Qed.

(** X10: The capacity is positive in every state a call can reach, and no call
    changes it except [SetSize] with a positive argument. *)
Theorem Size_changes_only_by_SetSize (c c' : Cache) (o : op) r :
  wf c → step c o = Some (c', r) →
  0 < Size c' ∧ Len c' <= Size c' ∧
  (Size c' = Size c ∨ ∃ n, o = OSetSize n ∧ 0 < n ∧ Size c' = n).
Proof.
  intros Hwf Hstep.
  destruct (step_entries_spec c o Hwf) as (c1 & r1 & Hs & Hwf1 & Hsz & _).
  rewrite Hstep in Hs. injection Hs as <- <-.
  split_and!; [apply Hwf1|apply Hwf1|done].
Qed.

(** *** The replies depend on the capacity and the entries only *)

Lemma lookup_abs (c1 c2 : Cache) k :
  wf c1 → wf c2 → entries c1 = entries c2 →
  (itemMap c1 !! k = None ∧ itemMap c2 !! k = None) ∨
  (∃ e1 e2 p, itemMap c1 !! k = Some e1 ∧ itemMap c2 !! k = Some e2 ∧
              mem c1 !! e1 = Some p ∧ mem c2 !! e2 = Some p).
Proof.
  intros Hwf1 Hwf2 Hent.
  assert (keys c1 = keys c2) as Hks by (unfold keys; by rewrite Hent).
  destruct (itemMap c1 !! k) as [e1|] eqn:Hk1.
  - right.
    assert (is_Some (itemMap c2 !! k)) as [e2 Hk2].
    { apply wf_lookup; [done|]. rewrite <- Hks. apply wf_lookup; eauto. }
    destruct (wf_lookup_entry c1 k e1 Hwf1 Hk1) as (p1 & Hp1 & Hkp1 & _ & Hi1).
    destruct (wf_lookup_entry c2 k e2 Hwf2 Hk2) as (p2 & Hp2 & Hkp2 & _ & Hi2).
    rewrite Hent in Hi1.
    assert (p1 = p2) as -> by (eapply (entry_unique c2); congruence).
    by exists e1, e2, p2.
  - left. split; [done|]. apply wf_lookup_None; [done|].
    rewrite <- Hks. by apply wf_lookup_None.
Qed.

Lemma add_abs (c1 c2 : Cache) k v :
  wf c1 → wf c2 → size c1 = size c2 → entries c1 = entries c2 →
  itemMap c1 !! k = None → itemMap c2 !! k = None →
  ∃ c1' c2', add c1 k v = Some (c1', None) ∧ add c2 k v = Some (c2', None) ∧
             wf c1' ∧ wf c2' ∧ size c1' = size c2' ∧
             entries c1' = entries c2'.
Proof.
  intros Hwf1 Hwf2 Hsz Hent Hk1 Hk2.
  assert (Len c1 = Len c2) as HLen.
  { rewrite !Len_length, <- !length_entries by done. by rewrite Hent. }
  destruct (decide (Len c1 < size c1)) as [Hlt|Hge].
  - destruct (add_room_spec c1 k v Hwf1 Hk1 Hlt) as (c1' & ? & ? & ? & ?).
    destruct (add_room_spec c2 k v Hwf2 Hk2) as (c2' & ? & ? & ? & ?);
      [lia|].
    exists c1', c2'. split_and!; try done; congruence.
  - destruct (add_full_spec c1 k v Hwf1 Hk1)
      as (c1' & r1 & o1 & ? & ? & ? & He1 & ?); [lia|].
    destruct (add_full_spec c2 k v Hwf2 Hk2)
      as (c2' & r2 & o2 & ? & ? & ? & He2 & ?); [lia|].
    rewrite Hent, He2 in He1. apply app_inj_tail in He1 as [-> _].
    exists c1', c2'. split_and!; try done; congruence.
Qed.

Lemma step_abs (c1 c2 : Cache) (o : op) :
  wf c1 → wf c2 → size c1 = size c2 → entries c1 = entries c2 →
  ∃ c1' c2' r, step c1 o = Some (c1', r) ∧ step c2 o = Some (c2', r) ∧
               wf c1' ∧ wf c2' ∧ size c1' = size c2' ∧
               entries c1' = entries c2'.
Proof.
  intros Hwf1 Hwf2 Hsz Hent.
  assert (Len c1 = Len c2) as HLen.
  { rewrite !Len_length, <- !length_entries by done. by rewrite Hent. }
  destruct o as [k|k v|k v|k|n| | |]; cbn [step].
  - destruct (lookup_abs c1 c2 k Hwf1 Hwf2 Hent)
      as [[Hk1 Hk2]|(e1 & e2 & p & Hk1 & Hk2 & Hp1 & Hp2)].
    + rewrite !Get_miss_spec by done. eexists _, _, _. by split_and!.
    + destruct (Get_hit_spec c1 k e1 p Hwf1 Hk1 Hp1) as (c1' & -> & ? & ? & ?).
      destruct (Get_hit_spec c2 k e2 p Hwf2 Hk2 Hp2) as (c2' & -> & ? & ? & ?).
      eexists _, _, _. split_and!; try done; congruence.
  - destruct (lookup_abs c1 c2 k Hwf1 Hwf2 Hent)
      as [[Hk1 Hk2]|(e1 & e2 & p & Hk1 & Hk2 & Hp1 & Hp2)].
    + destruct (add_abs c1 c2 k v) as (c1' & c2' & H1 & H2 & ? & ? & ? & ?);
        try done.
      unfold Set_. rewrite Hk1, Hk2, H1, H2. eexists _, _, _. by split_and!.
    + destruct (Set_hit_spec c1 k v e1 Hwf1 Hk1) as (c1' & -> & ? & ? & ?).
      destruct (Set_hit_spec c2 k v e2 Hwf2 Hk2) as (c2' & -> & ? & ? & ?).
      eexists _, _, _. split_and!; try done; congruence.
  - destruct (lookup_abs c1 c2 k Hwf1 Hwf2 Hent)
      as [[Hk1 Hk2]|(e1 & e2 & p & Hk1 & Hk2 & Hp1 & Hp2)].
    + destruct (add_abs c1 c2 k v) as (c1' & c2' & H1 & H2 & ? & ? & ? & ?);
        try done.
      unfold Add. rewrite Hk1, Hk2, H1, H2. eexists _, _, _. by split_and!.
    + unfold Add. rewrite Hk1, Hk2. eexists _, _, _. by split_and!.
  - destruct (lookup_abs c1 c2 k Hwf1 Hwf2 Hent)
      as [[Hk1 Hk2]|(e1 & e2 & p & Hk1 & Hk2 & Hp1 & Hp2)].
    + rewrite !Remove_miss_spec by done. eexists _, _, _. by split_and!.
    + destruct (Remove_hit_spec c1 k e1 Hwf1 Hk1)
        as (c1' & -> & ? & ? & _ & _ & ?).
      destruct (Remove_hit_spec c2 k e2 Hwf2 Hk2)
        as (c2' & -> & ? & ? & _ & _ & ?).
      eexists _, _, _. split_and!; try done; congruence.
  - destruct (decide (n <= 0)) as [Hn|Hn].
    + unfold SetSize. rewrite !bool_decide_eq_true_2 by done.
      eexists _, _, _. by split_and!.
    + destruct (SetSize_spec c1 n Hwf1) as (c1' & -> & ? & ? & ?); [lia|].
      destruct (SetSize_spec c2 n Hwf2) as (c2' & -> & ? & ? & ?); [lia|].
      eexists _, _, _. split_and!; try done; congruence.
  - eexists _, _, _. split_and!; try done; by apply wf_Purge.
  - rewrite HLen. eexists _, _, _. by split_and!.
  - unfold Size. rewrite Hsz. eexists _, _, _. by split_and!.
Qed.

Lemma run_abs (c1 c2 : Cache) h (os : list op) :
  wf c1 → wf c2 → size c1 = size c2 → entries c1 = entries c2 →
  ∃ c1' c2' h', run c1 h os = Some (c1', h') ∧ run c2 h os = Some (c2', h') ∧
                wf c1' ∧ wf c2' ∧ size c1' = size c2' ∧
                entries c1' = entries c2'.
Proof.
  revert c1 c2 h. induction os as [|o os IH]; intros c1 c2 h ? ? ? ?.
  - exists c1, c2, h. by split_and!.
  - destruct (step_abs c1 c2 o)
      as (c1' & c2' & r & Hs1 & Hs2 & ? & ? & ? & ?); try done.
    cbn [run]. rewrite Hs1, Hs2. simpl. by apply IH.
Qed.

(** X11: Two caches with the same capacity and the same entries in the same
    order cannot be told apart: whatever is called on both, the replies are
    the same and capacity and entries agree afterwards.  Element addresses
    and payloads that are no longer linked do not matter. *)
Theorem replies_depend_on_entries (c1 c2 : Cache) (os : list op) :
  wf c1 → wf c2 → Size c1 = Size c2 → entries c1 = entries c2 →
  ∃ c1' c2' h, run c1 [] os = Some (c1', h) ∧ run c2 [] os = Some (c2', h) ∧
               Size c1' = Size c2' ∧ entries c1' = entries c2'.
Proof.
  intros Hwf1 Hwf2 Hsz Hent.
  destruct (run_abs c1 c2 [] os Hwf1 Hwf2 Hsz Hent)
    as (c1' & c2' & h & ? & ? & _ & _ & ? & ?).
  by exists c1', c2', h.
Qed.

(** X12: A purged cache answers every sequence of calls as a new cache of the
    same capacity does. *)
Theorem Purge_like_New (c : Cache) (os : list op) :
  wf c →
  ∃ c1 c2 h, run (Purge c) [] os = Some (c1, h) ∧
             session (Size c) os = Some (c2, h) ∧
             Size c1 = Size c2 ∧ entries c1 = entries c2.
Proof.
  intros Hwf. pose proof (wf_size c Hwf) as Hsz. unfold session, Size.
  destruct (New (size c)) as [c0|] eqn:HNew.
  - destruct (wf_New _ c0 HNew) as (Hwf0 & Hsz0 & Hent0). simpl.
    destruct (run_abs (Purge c) c0 [] os)
      as (c1 & c2 & h & ? & ? & _ & _ & ? & ?);
      [by apply wf_Purge|done|done|done|].
    by exists c1, c2, h.
  - unfold New in HNew. by rewrite bool_decide_eq_false_2 in HNew by lia.
Qed.

(** *** What a recent touch buys *)

Lemma elem_of_take_le {A} (l : list A) n m x :
  x ∈ take n l → (n ≤ m)%nat → x ∈ take m l.
Proof.
  rewrite !elem_of_take. intros (i & ? & ?) ?. exists i. split; [done|lia].
Qed.

Lemma elem_of_take_filter {A} (P : A → Prop) `{!∀ x, Decision (P x)}
    (l : list A) n x :
  x ∈ take n l → P x → x ∈ take n (filter P l).
Proof.
  revert n. induction l as [|y l IH]; intros n Hx HP.
  - rewrite take_nil in Hx. by apply elem_of_nil in Hx.
  - destruct n as [|n]; [by apply elem_of_nil in Hx|].
    cbn [take] in Hx. apply elem_of_cons in Hx as [->|Hx].
    + rewrite filter_cons_True by done. left.
    + destruct (decide (P y)).
      * rewrite filter_cons_True by done. right. by apply IH.
      * rewrite filter_cons_False by done.
        apply (elem_of_take_le _ n); [by apply IH|lia].
Qed.

Lemma add_take (c : Cache) k v (p : payload) (m : nat) :
  wf c → itemMap c !! k = None →
  p ∈ take m (entries c) → Z.of_nat m < size c →
  ∃ c', add c k v = Some (c', None) ∧ wf c' ∧ size c' = size c ∧
        p ∈ take (S m) (entries c').
Proof.
  intros Hwf Hk Hp Hm. destruct (decide (Len c < size c)) as [Hlt|Hge].
  - destruct (add_room_spec c k v Hwf Hk Hlt) as (c' & ? & ? & ? & He).
    exists c'. split_and!; try done. rewrite He. by right.
  - destruct (add_full_spec c k v Hwf Hk)
      as (c' & rest & old & ? & ? & ? & He & He'); [lia|].
    exists c'. split_and!; try done. rewrite He'. right.
    pose proof (length_entries c Hwf) as Hlen.
    pose proof (wf_cap c Hwf) as Hcap. rewrite Len_length in *.
    rewrite He, length_app in Hlen. simpl in Hlen.
    rewrite He, take_app_le in Hp by lia. done.
Qed.

Lemma survive_step (c : Cache) (o : op) k (m : nat) :
  wf c → (∃ p, key p = k ∧ p ∈ take m (entries c)) → Z.of_nat m < size c →
  match o with
  | ORemove k' => k' ≠ k
  | OSetSize _ | OPurge => False
  | _ => True
  end →
  ∃ c' r, step c o = Some (c', r) ∧ wf c' ∧ size c' = size c ∧
          ∃ p', key p' = k ∧ p' ∈ take (S m) (entries c').
Proof.
  intros Hwf (p & Hkp & Hp) Hm Hok.
  assert (p ∈ take (S m) (entries c)) as Hp' by
    (apply (elem_of_take_le _ m); [done|lia]).
  assert (∀ (hd : payload) k', key hd = k' →
    ∃ p', key p' = k ∧
          p' ∈ take (S m) (hd :: filter (λ q, key q ≠ k') (entries c)))
    as Hhit.
  { intros hd k' Hhd. destruct (decide (k' = k)) as [->|Hne].
    - exists hd. split; [done|]. left.
    - exists p. split; [done|]. right.
      apply elem_of_take_filter; [done|congruence]. }
  destruct o as [k'|k' v|k' v|k'|n| | |]; cbn [step]; try done.
  - destruct (itemMap c !! k') as [e|] eqn:Hk.
    + destruct (wf_lookup_entry c k' e Hwf Hk) as (q & Hq & Hkq & _).
      destruct (Get_hit_spec c k' e q Hwf Hk Hq)
        as (c' & -> & ? & ? & He).
      eexists _, _. split_and!; try done. rewrite He. by apply Hhit.
    + rewrite Get_miss_spec by done. eexists _, _. split_and!; eauto.
  - destruct (itemMap c !! k') as [e|] eqn:Hk.
    + destruct (Set_hit_spec c k' v e Hwf Hk) as (c' & -> & ? & ? & He).
      eexists _, _. split_and!; try done. rewrite He. by apply Hhit.
    + destruct (add_take c k' v p m Hwf Hk Hp Hm) as (c' & Ha & ? & ? & ?).
      unfold Set_. rewrite Hk, Ha. eexists _, _. split_and!; eauto.
  - destruct (itemMap c !! k') as [e|] eqn:Hk.
    + unfold Add. rewrite Hk. eexists _, _. split_and!; eauto.
    + destruct (add_take c k' v p m Hwf Hk Hp Hm) as (c' & Ha & ? & ? & ?).
      unfold Add. rewrite Hk, Ha. eexists _, _. split_and!; eauto.
  - destruct (itemMap c !! k') as [e|] eqn:Hk.
    + destruct (Remove_hit_spec c k' e Hwf Hk)
        as (c' & -> & ? & ? & _ & _ & He).
      eexists _, _. split_and!; try done. exists p. split; [done|].
      rewrite He. apply (elem_of_take_le _ m); [|lia].
      apply elem_of_take_filter; [done|congruence].
    + rewrite Remove_miss_spec by done. eexists _, _. split_and!; eauto.
  - eexists _, _. split_and!; eauto.
  - eexists _, _. split_and!; eauto.
Qed.

(** X13: The point of the cache: a key among the [n] most recent entries is
    still held after any further calls, as long as [n] plus the number of
    calls is at most [Size] and none of them removes that key, purges or
    resizes.  In particular a key just touched survives the next
    [Size - 1] calls of [Get], [Set] and [Add], whatever their keys. *)
Theorem recently_used_survives (c : Cache) k (n : nat) (os : list op) :
  wf c → k ∈ take n (keys c) →
  Z.of_nat (n + length os) <= Size c →
  Forall (λ o, match o with
               | ORemove k' => k' ≠ k
               | OSetSize _ | OPurge => False
               | _ => True
               end) os →
  ∃ c' h, run c [] os = Some (c', h) ∧ k ∈ take (n + length os) (keys c').
Proof.
  unfold Size, keys. intros Hwf Hk Hlen Hall.
  rewrite <- fmap_take in Hk.
  apply list_elem_of_fmap in Hk as (p & Hkp & Hp).
  assert (∃ p, key p = k ∧ p ∈ take n (entries c)) as Hinv by eauto.
  clear p Hkp Hp. generalize (@nil (op * reply)) as h.
  revert c n Hwf Hlen Hinv.
  induction Hall as [|o os Ho Hall IH]; intros c n Hwf Hlen Hinv h.
  - exists c, h. split; [done|]. rewrite Nat.add_0_r, <- fmap_take.
    destruct Hinv as (p & <- & Hp). apply list_elem_of_fmap. eauto.
  - simpl in Hlen.
    destruct (survive_step c o k n Hwf Hinv) as (c1 & r & Hs & Hwf1 & Hsz & Hinv1);
      [lia|done|].
    cbn [run]. rewrite Hs. simpl.
    destruct (IH c1 (S n) Hwf1) with (h := (o, r) :: h)
      as (c' & h' & Hrun & Hk'); [lia|done|].
    exists c', h'. split; [done|].
    replace (n + S (length os))%nat with (S n + length os)%nat by lia. done.
Qed.

(** X14: Overwriting never evicts: [Set] on a present key keeps every other
    entry with its value, and the keys held are the same as before. *)
Theorem Set_present_keeps_others (c : Cache) k v :
  wf c → is_Some (itemMap c !! k) →
  ∃ c1, Set_ c k v = Some (c1, None) ∧
        keys c1 ≡ₚ keys c ∧
        ∀ q, key q ≠ k → (q ∈ entries c1 ↔ q ∈ entries c).
Proof.
  intros Hwf [e Hk].
  destruct (wf_lookup_entry c k e Hwf Hk) as (p & _ & Hkp & _ & Hp).
  destruct (Set_hit_spec c k v e Hwf Hk) as (c1 & HS & _ & _ & He).
  exists c1. split_and!; [done| |].
  - unfold keys. rewrite (entries_split c p Hwf Hp), He, Hkp.
    by rewrite !fmap_cons, Hkp.
  - intros q Hq. rewrite He, elem_of_cons, list_elem_of_filter. split.
    + intros [->|[_ ?]]; [done|done].
    + intros ?. right. done.
Qed.

End more_proofs.

(** ** The further properties at concrete inputs *)

Lemma wf_cache_a : wf cache_a.
Proof.
  apply (session_inv 2 [OSet "a" 1] cache_a [(OSet "a" 1, RError None)]).
  vm_compute. reflexivity.
Qed.

Lemma wf_cache_ba : wf cache_ba.
Proof.
  apply (session_inv 2 [OSet "b" 2; OSet "a" 1; OGet "b"] cache_ba
           [(OGet "b", RValue (Some 2) None); (OSet "a" 1, RError None);
            (OSet "b" 2, RError None)]).
  vm_compute. reflexivity.
Qed.

Lemma step_cache_ab_Set_c :
  step cache_ab (OSet "c" 3) = Some (cache_cb, RError None).
Proof. vm_compute. reflexivity. Qed.

Lemma elements_are_indexed_witness :
  session 2 [OSet "a" 1; OSet "b" 2] = Some (cache_ab, history_ab) ∧
  NoDup (lruList cache_ab) ∧ NoDup (keys cache_ab) ∧
  ∀ e, e ∈ lruList cache_ab →
       ∃ p, mem cache_ab !! e = Some p ∧ itemMap cache_ab !! key p = Some e.
Proof.
  split; [exact session_ab|].
  exact (elements_are_indexed 2 [OSet "a" 1; OSet "b" 2] cache_ab history_ab
           session_ab).
Defined.

Lemma Get_reads_entries_witness :
  wf cache_ab ∧
  ∃ c' v err,
    Get cache_ab "a" = Some (c', (v, err)) ∧
    size c' = size cache_ab ∧ itemMap c' = itemMap cache_ab ∧
    mem c' = mem cache_ab ∧
    entries c' ≡ₚ entries cache_ab ∧
    (∀ w, v = Some w ∧ err = None ↔ Payload "a" w ∈ entries cache_ab) ∧
    (err = Some ErrNotFound ↔ "a" ∉ keys cache_ab) ∧
    ("a" ∉ keys cache_ab → c' = cache_ab ∧ v = None).
Proof.
  split; [exact wf_cache_ab|].
  exact (Get_reads_entries cache_ab "a" wf_cache_ab).
Defined.

Lemma Get_twice_witness :
  Get cache_ab "a"
  = Some (with_lruList cache_ab [0%nat; 1%nat], (Some 1, None)) ∧
  Get (with_lruList cache_ab [0%nat; 1%nat]) "a"
  = Some (with_lruList cache_ab [0%nat; 1%nat], (Some 1, None)).
Proof.
  assert (Get cache_ab "a"
          = Some (with_lruList cache_ab [0%nat; 1%nat], (Some 1, None)))
    as HG by (vm_compute; reflexivity).
  split; [exact HG|]. exact (Get_twice _ _ _ _ HG).
Defined.

Lemma Set_last_write_wins_witness :
  wf cache_ab ∧
  ∃ c1 c2 c2',
    Set_ cache_ab "c" 3 = Some (c1, None) ∧
    Set_ c1 "c" 4 = Some (c2, None) ∧
    Set_ cache_ab "c" 4 = Some (c2', None) ∧
    entries c2 = entries c2' ∧ size c2 = size c2'.
Proof.
  split; [exact wf_cache_ab|].
  exact (Set_last_write_wins cache_ab "c" 3 4 wf_cache_ab).
Defined.

Lemma Add_then_Remove_witness :
  wf cache_a ∧ itemMap cache_a !! "b" = None ∧ Len cache_a < Size cache_a ∧
  ∃ c1 c2,
    Add cache_a "b" 2 = Some (c1, None) ∧ Remove c1 "b" = Some (c2, None) ∧
    lruList c2 = lruList cache_a ∧ itemMap c2 = itemMap cache_a ∧
    entries c2 = entries cache_a ∧ size c2 = size cache_a.
Proof.
  assert (itemMap cache_a !! "b" = None) as Hb by (vm_compute; reflexivity).
  assert (Len cache_a < Size cache_a) as Hl by (vm_compute; reflexivity).
  split_and!; [exact wf_cache_a|exact Hb|exact Hl|].
  exact (Add_then_Remove cache_a "b" 2 wf_cache_a Hb Hl).
Defined.

Lemma Len_accounting_witness :
  wf cache_ab ∧ itemMap cache_ab !! "c" = None ∧
  ∃ c', Add cache_ab "c" 3 = Some (c', None) ∧
        Len c' = Z.min (Len cache_ab + 1) (Size cache_ab).
Proof.
  assert (itemMap cache_ab !! "c" = None) as Hc by (vm_compute; reflexivity).
  split_and!; [exact wf_cache_ab|exact Hc|].
  exact (proj1 (Len_accounting cache_ab "c" 3 wf_cache_ab) Hc).
Defined.

Lemma SetSize_twice_witness :
  wf cache_ab ∧ 0 < 3 ∧ 0 < 1 ∧
  ∃ c1 c2,
    SetSize cache_ab 3 = Some c1 ∧ SetSize c1 1 = Some c2 ∧
    Size c2 = 1 ∧
    entries c2 = take (Z.to_nat (Z.min 3 1)) (entries cache_ab) ∧
    SetSize c1 3 = Some c1.
Proof.
  assert (0 < 3) as H3 by lia. assert (0 < 1) as H1 by lia.
  split_and!; [exact wf_cache_ab|exact H3|exact H1|].
  exact (SetSize_twice cache_ab 3 1 wf_cache_ab H3 H1).
Defined.

Lemma add_reuses_back_element_witness :
  wf cache_ab ∧ itemMap cache_ab !! "c" = None ∧
  ∃ c', add cache_ab "c" 3 = Some (c', None) ∧
    itemMap c' !! "c" = head (lruList c') ∧
    (Len cache_ab >= Size cache_ab →
       ∃ e rest, lruList cache_ab = rest ++ [e] ∧ lruList c' = e :: rest ∧
                 mem c' = <[e := Payload "c" 3]> (mem cache_ab)) ∧
    (Len cache_ab < Size cache_ab →
       lruList c' = length (mem cache_ab) :: lruList cache_ab ∧
       mem c' = mem cache_ab ++ [Payload "c" 3] ∧
       length (mem cache_ab) ∉ lruList cache_ab).
Proof.
  assert (itemMap cache_ab !! "c" = None) as Hc by (vm_compute; reflexivity).
  split_and!; [exact wf_cache_ab|exact Hc|].
  exact (add_reuses_back_element cache_ab "c" 3 wf_cache_ab Hc).
Defined.

Lemma step_keeps_or_writes_witness :
  wf cache_ab ∧
  step cache_ab (OSet "c" 3) = Some (cache_cb, RError None) ∧
  Payload "b" 2 ∈ entries cache_cb ∧
  (Payload "b" 2 ∈ entries cache_ab ∨
   ∃ v, (OSet "c" 3 = OSet (key (Payload "b" 2)) v ∨
         OSet "c" 3 = OAdd (key (Payload "b" 2)) v) ∧
        value (Payload "b" 2) = v ∧ RError None = RError (Value:=Z) None).
Proof.
  assert (Payload "b" 2 ∈ entries cache_cb) as Hb.
  { change (entries cache_cb) with [Payload "c" 3; Payload "b" 2].
    right. left. }
  split_and!; [exact wf_cache_ab|exact step_cache_ab_Set_c|exact Hb|].
  exact (step_keeps_or_writes cache_ab cache_cb (OSet "c" 3) (RError None)
           (Payload "b" 2) wf_cache_ab step_cache_ab_Set_c Hb).
Defined.

Lemma Size_changes_only_by_SetSize_witness :
  wf cache_ab ∧
  step cache_ab (OSet "c" 3) = Some (cache_cb, RError None) ∧
  0 < Size cache_cb ∧ Len cache_cb <= Size cache_cb ∧
  (Size cache_cb = Size cache_ab ∨
   ∃ n, OSet "c" 3 = OSetSize n ∧ 0 < n ∧ Size cache_cb = n).
Proof.
  split_and!; [exact wf_cache_ab|exact step_cache_ab_Set_c|..];
    apply (Size_changes_only_by_SetSize cache_ab cache_cb (OSet "c" 3)
             (RError None) wf_cache_ab step_cache_ab_Set_c).
Defined.

Lemma replies_depend_on_entries_witness :
  wf cache_ab ∧ wf cache_ba ∧ Size cache_ab = Size cache_ba ∧
  entries cache_ab = entries cache_ba ∧
  ∃ c1' c2' h,
    run cache_ab [] [OGet "a"; OSet "c" 3; OGet "b"] = Some (c1', h) ∧
    run cache_ba [] [OGet "a"; OSet "c" 3; OGet "b"] = Some (c2', h) ∧
    Size c1' = Size c2' ∧ entries c1' = entries c2'.
Proof.
  assert (Size cache_ab = Size cache_ba) as Hs by reflexivity.
  assert (entries cache_ab = entries cache_ba) as He by reflexivity.
  split_and!; [exact wf_cache_ab|exact wf_cache_ba|exact Hs|exact He|].
  exact (replies_depend_on_entries cache_ab cache_ba
           [OGet "a"; OSet "c" 3; OGet "b"] wf_cache_ab wf_cache_ba Hs He).
Defined.

Lemma Purge_like_New_witness :
  wf cache_ab ∧
  ∃ c1 c2 h,
    run (Purge cache_ab) [] [OGet "a"; OAdd "c" 3; OLen] = Some (c1, h) ∧
    session (Size cache_ab) [OGet "a"; OAdd "c" 3; OLen] = Some (c2, h) ∧
    Size c1 = Size c2 ∧ entries c1 = entries c2.
Proof.
  split; [exact wf_cache_ab|].
  exact (Purge_like_New cache_ab [OGet "a"; OAdd "c" 3; OLen] wf_cache_ab).
Defined.

Lemma recently_used_survives_witness :
  wf cache_ab ∧ "b" ∈ take 1 (keys cache_ab) ∧
  Z.of_nat (1 + length [OSet "c" 3]) <= Size cache_ab ∧
  ∃ c' h, run cache_ab [] [OSet "c" 3] = Some (c', h) ∧
          "b" ∈ take (1 + length [OSet "c" 3]) (keys c').
Proof.
  assert ("b" ∈ take 1 (keys cache_ab)) as Hb.
  { change (take 1 (keys cache_ab)) with ["b"]. left. }
  assert (Z.of_nat (1 + length [OSet "c" 3]) <= Size cache_ab) as Hn
    by (vm_compute; discriminate).
  split_and!; [exact wf_cache_ab|exact Hb|exact Hn|].
  apply (recently_used_survives cache_ab "b" 1 [OSet "c" 3] wf_cache_ab Hb Hn).
  repeat constructor.
Defined.

Lemma Set_present_keeps_others_witness :
  wf cache_ab ∧ is_Some (itemMap cache_ab !! "a") ∧
  ∃ c1, Set_ cache_ab "a" 5 = Some (c1, None) ∧
        keys c1 ≡ₚ keys cache_ab ∧
        ∀ q, key q ≠ "a" → (q ∈ entries c1 ↔ q ∈ entries cache_ab).
Proof.
  assert (is_Some (itemMap cache_ab !! "a")) as Ha
    by (exists 0%nat; vm_compute; reflexivity).
  split_and!; [exact wf_cache_ab|exact Ha|].
  exact (Set_present_keeps_others cache_ab "a" 5 wf_cache_ab Ha).
Defined.
